(** * Shallow embedding of the dftest analytics pipeline

    The development follows the JavaScript sources file by file:

    - [Sweep]            : the strategy sweep, the script of
                           src/download_recent_matches.js that starts at
                           [const INITIAL_BANK] (buildCombos, simulateStrategy,
                           computeStake, getFibNumber, loadMatches,
                           heroNamesToIds, computeTeamCounts, computeAdvantage);
    - [DeltaPctCustom]   : run_delta_pct_custom.js, which is
                           src/unnamed/part_004 (loadMatrix with heroScore and
                           delta, execute), and the call of it in
                           src/run_delta_pct_custom_cli20.js;
    - [DeltaPctStrategy] : src/delta_pct_strategy.js (run);
    - [BuildCsMatrix]    : src/build_cs_matrix.js (normalizeHeroIds,
                           buildMatrix).

    Numbers.  JavaScript numbers are modelled by exact arithmetic: amounts of
    money, odds and deltas are rationals ([Q]), counters and Fibonacci values
    are integers ([Z]).  Non-finite numbers (NaN, Infinity) are outside the
    model, so every [Number.isFinite] guard of the sources is vacuously passed;
    where the sources parse a string with [parseFloat] and may obtain NaN, the
    parsed field is an [option Q] and [None] stands for the non-finite result.
    Rounding of the double-precision operations is not modelled either: sums,
    products and Fibonacci values are exact. *)

From Stdlib Require Import ZArith QArith Qabs Qround Qminmax Lia Lqa String Ascii List Bool Sorted.
From stdpp Require Import base option list gmap strings.
From Equations Require Import Equations.
Import ListNotations.

Local Open Scope Z_scope.
Local Open Scope Q_scope.

(** ** Number helpers shared by all scripts *)

(** [a < b] on numbers, as a boolean. *)
Definition Qlt_bool (a b : Q) : bool := negb (Qle_bool b a).

(** [Math.floor]. *)
Definition Math_floor (x : Q) : Z := Qfloor x.

(** [Math.round]: the nearest integer, ties towards +Infinity. *)
Definition Math_round (x : Q) : Z := Qfloor (x + (1 # 2)).

(** [Math.abs]. *)
Definition Math_abs (x : Q) : Q := Qabs x.

(** [Number.prototype.toFixed(digits)] followed by [parseFloat]: the decimal
    with [digits] fractional digits nearest to [x], ties away from zero. *)
Definition toFixed (digits : nat) (x : Q) : Q :=
  let scale := inject_Z (10 ^ Z.of_nat digits) in
  if Qlt_bool x 0
  then - (inject_Z (Qfloor ((- x) * scale + (1 # 2))) / scale)
  else inject_Z (Qfloor (x * scale + (1 # 2))) / scale.

(** ** Hero names and the matrix file (shared data model)

    [name.toLowerCase().replace(/[^a-z0-9]/g, '')], the same expression in
    every script, on ASCII names. *)

Definition toLowerCase (c : ascii) : ascii :=
  let n := nat_of_ascii c in
  if ((65 <=? n) && (n <=? 90))%nat then ascii_of_nat (n + 32) else c.

Definition is_a_z0_9 (c : ascii) : bool :=
  let n := nat_of_ascii c in
  (((97 <=? n) && (n <=? 122)) || ((48 <=? n) && (n <=? 57)))%nat.

Fixpoint normalizeHeroName (name : string) : string :=
  match name with
  | EmptyString => EmptyString
  | String c rest =>
      let c' := toLowerCase c in
      if is_a_z0_9 c' then String c' (normalizeHeroName rest)
      else normalizeHeroName rest
  end.

(** A populated cell [[advantageString, winRatePctString, gamesInt]] of
    [win_rates], with its two strings parsed; an unpopulated cell is [null],
    here [None]. *)
Record Cell := {
  cell_advantage : Q;
  cell_winRatePct : Q;
  cell_games : Z;
}.

Abbreviation WinRates := (list (list (option Cell))).

(** [heroes.forEach((name, idx) => heroIndex.set(normalize(name), idx))]. *)
Fixpoint indexHeroes (idx : nat) (heroes : list string) (heroIndex : gmap string nat)
  : gmap string nat :=
  match heroes with
  | [] => heroIndex
  | name :: rest =>
      indexHeroes (S idx) rest (<[normalizeHeroName name := idx]> heroIndex)
  end.

(** ** The strategy sweep (third script of download_recent_matches.js) *)

Module Sweep.

Definition INITIAL_BANK : Q := 1000.
Definition MAX_BET : Q := 10000.
Definition DELTA_THRESHOLDS : list Q :=
  [5; 10; 15; 20; 25; 30; 35; 40; 45; 50; 75].

(** *** The global memo table [fibCache] and the monad that threads it

    [const fibCache = [1, 1]] is module-level state mutated by
    [getFibNumber]; every function that (transitively) calls it is written in
    the state monad [M] over the table. *)

Abbreviation FibCache := (list Z).
Definition fibCache0 : FibCache := [1; 1]%Z.

Definition M (A : Type) : Type := FibCache -> A * FibCache.
Definition ret {A} (a : A) : M A := fun c => (a, c).
Definition bind {A B} (m : M A) (k : A -> M B) : M B :=
  fun c => let '(a, c') := m c in k a c'.

Notation "'let*' x ':=' m 'in' k" := (bind m (fun x => k))
  (at level 10, x name, m at level 100, k at level 200).

(** [fibCache[i]]; the table never has fewer than two entries, the default
    stands for [undefined]. *)
Definition cache_at (fibCache : FibCache) (i : nat) : Z := nth i fibCache 0%Z.

(** The [while (fibCache.length <= step) fibCache.push(last + prev)] loop. *)
Equations? fill_cache (step : Z) (fibCache : FibCache) : FibCache
  by wf (Z.to_nat (step + 1 - Z.of_nat (length fibCache))) lt :=
  fill_cache step fibCache with Z_le_dec (Z.of_nat (length fibCache)) step => {
    | left _ =>
        let last := cache_at fibCache (length fibCache - 1) in
        let prev := cache_at fibCache (length fibCache - 2) in
        fill_cache step (fibCache ++ [(last + prev)%Z]);
    | right _ => fibCache }.
Proof. rewrite length_app. simpl. lia. Qed.

Definition getFibNumber (step : Z) : M Z := fun fibCache =>
  if (step <=? 0)%Z then (1%Z, fibCache)
  else
    let fibCache' := fill_cache step fibCache in
    (cache_at fibCache' (Z.to_nat step), fibCache').

(** *** Strategy configurations *)

Inductive HeroFilter := hf_none | hf_4p4m | hf_5p5m.
Inductive OddsCondition := oc_any | oc_underdog | oc_favorite.

(** The three shapes of combo object, tagged by [stake_type]; the final
    [throw new Error('Unknown stake type')] of [computeStake] is the branch
    for a tag outside this type. *)
Inductive Stake :=
  | flat (flat_amount : Q)
  | pct_bankroll (percent : Q)
  | fibonacci (unit : Q).

Record Combo := {
  strategy_group : string;
  stake : Stake;
  hero_filter : HeroFilter;
  odds_condition : OddsCondition;
}.

Definition is_fibonacci (combo : Combo) : bool :=
  match stake combo with fibonacci _ => true | _ => false end.

Definition oddsConditions : list OddsCondition := [oc_any; oc_underdog; oc_favorite].

Definition flat100 (amount : Q) : string * Stake := ("Flat100"%string, flat amount).
Definition flat5 (amount : Q) : string * Stake := ("Flat5pct"%string, flat amount).
Definition pct5 : string * Stake := ("Pct5"%string, pct_bankroll (5 # 100)).
Definition fib1 (unit : Q) : string * Stake :=
  ((if Qeq_bool unit 1 then "Fibo1" else "Fibo5")%string, fibonacci unit).

(** [oddsConditions.forEach(odds_condition => combos.push({...template,
    hero_filter, odds_condition}))]. *)
Definition pushEach (template : string * Stake) (heroFilter : HeroFilter) : list Combo :=
  map (fun oc => {| strategy_group := fst template; stake := snd template;
                    hero_filter := heroFilter; odds_condition := oc |})
      oddsConditions.

Definition pushFlat (amount : Q) (heroFilter : HeroFilter) : list Combo :=
  pushEach (flat100 amount) heroFilter.

Definition flatFiveAmount : Q := INITIAL_BANK * (5 # 100).

Definition buildCombos : list Combo :=
     pushFlat 100 hf_none                  (* 1-3 *)
  ++ pushEach pct5 hf_none                 (* 4-6 *)
  ++ pushFlat 100 hf_4p4m                  (* 7-9 *)
  ++ pushEach (flat5 flatFiveAmount) hf_4p4m   (* 10-12 *)
  ++ pushFlat 100 hf_5p5m                  (* 13-15 *)
  ++ pushEach (flat5 flatFiveAmount) hf_5p5m   (* 16-18 *)
  ++ pushEach (fib1 1) hf_none             (* 19-21 *)
  ++ pushEach (fib1 1) hf_4p4m             (* 22-24 *)
  ++ pushEach (fib1 1) hf_5p5m             (* 25-27 *)
  ++ pushEach (fib1 5) hf_none             (* 28-30 *)
  ++ pushEach (fib1 5) hf_4p4m             (* 31-33 *)
  ++ pushEach (fib1 5) hf_5p5m.            (* 34-36 *)

(** *** Match rows, as [loadMatches] pushes them *)

Inductive OddsRelation := rel_any | rel_favorite | rel_underdog.

Record Match := {
  deltaAbs : Q;
  deltaFavTeam : string;
  deltaDogTeam : string;
  deltaFavIsTeam1 : bool;
  favOdds : Q;
  dogOdds : Q;
  oddsRelation : OddsRelation;
  winner : string;
  team1Pos : Z;
  team1Neg : Z;
  team2Pos : Z;
  team2Neg : Z;
}.

Definition classifyOddsRelation (favOdds dogOdds : Q) : OddsRelation :=
  if Qlt_bool favOdds dogOdds then rel_favorite
  else if Qlt_bool dogOdds favOdds then rel_underdog
  else rel_any.

Definition heroFilterSatisfied (m : Match) (filter : HeroFilter) : bool :=
  match filter with
  | hf_none => true
  | _ =>
      let favPos := if deltaFavIsTeam1 m then team1Pos m else team2Pos m in
      let oppNeg := if deltaFavIsTeam1 m then team2Neg m else team1Neg m in
      match filter with
      | hf_4p4m => (4 <=? favPos)%Z && (4 <=? oppNeg)%Z
      | _ => (5 <=? favPos)%Z && (5 <=? oppNeg)%Z
      end
  end.

(** *** Hero data and the loader *)

Record HeroData := {
  heroes : list string;
  heroesWr : list Q;
  winRates : WinRates;
  heroIndex : gmap string nat;
}.

(** [loadCsData], after the matrix script has been evaluated. *)
Definition loadCsData (heroes : list string) (heroesWr : list Q) (winRates : WinRates)
  : HeroData :=
  {| heroes := heroes; heroesWr := heroesWr; winRates := winRates;
     heroIndex := indexHeroes 0 heroes ∅ |}.

(** [heroNamesToIds]; the second component is [heroData.missingHeroes], which
    the function updates before it returns [null]. *)
Fixpoint heroNamesToIds_loop (ids : list nat) (heroNames : list string)
    (heroData : HeroData) (missingHeroes : gmap string string)
  : option (list nat) * gmap string string :=
  match heroNames with
  | [] => (Some ids, missingHeroes)
  | name :: rest =>
      let normalized := normalizeHeroName name in
      match heroIndex heroData !! normalized with
      | None => (None, <[normalized := name]> missingHeroes)
      | Some id => heroNamesToIds_loop (ids ++ [id]) rest heroData missingHeroes
      end
  end.

Definition heroNamesToIds (heroNames : list string) (heroData : HeroData)
    (missingHeroes : gmap string string) :=
  heroNamesToIds_loop [] heroNames heroData missingHeroes.

Definition computeAdvantage (heroId : nat) (enemyIds : list nat) (winRates : WinRates)
  : Q :=
  fold_left (fun total enemyId =>
      match winRates !! enemyId with
      | None => total
      | Some row =>
          match row !! heroId with
          | Some (Some cell) => total + cell_advantage cell
          | _ => total
          end
      end) enemyIds 0.

Definition computeTeamCounts (heroIds enemyIds : list nat) (heroData : HeroData)
  : Z * Z :=
  fold_left (fun '(pos, neg) heroId =>
      let adv := computeAdvantage heroId enemyIds (winRates heroData) in
      if Qlt_bool 0 adv then ((pos + 1)%Z, neg)
      else if Qlt_bool adv 0 then (pos, (neg + 1)%Z)
      else (pos, neg)) heroIds (0%Z, 0%Z).

(** A CSV line as [loadMatches] sees it.  Splitting into columns
    ([parseCsvLine]), [parseNumber], [splitHeroes] and [trim] are parsing
    primitives; a full row carries their results for the columns read. *)
Record Row := {
  row_team1 : string;               (* row[5].trim() *)
  row_team2 : string;               (* row[6].trim() *)
  row_team1_heroes : list string;   (* splitHeroes(row[7]) *)
  row_team2_heroes : list string;   (* splitHeroes(row[8]) *)
  row_winner : string;              (* row[9].trim() *)
  row_delta : option Q;             (* parseNumber(row[10]), None = NaN *)
  row_deltaFavTeam : string;        (* row[11].trim() *)
  row_team1_odds : option Q;        (* parseNumber(row[12]) *)
  row_team2_odds : option Q;        (* parseNumber(row[13]) *)
}.

Inductive Line :=
  | BlankLine                       (* !line || !line.trim() *)
  | ShortRow                        (* row.length < 14 *)
  | FullRow (row : Row).

Record SkipCounters := {
  skip_blank : Z;
  skip_malformed : Z;
  skip_delta : Z;
  skip_heroes : Z;
  skip_heroLookup : Z;
  skip_odds : Z;
  skip_favored : Z;
}.

Definition skipCounters0 : SkipCounters :=
  {| skip_blank := 0; skip_malformed := 0; skip_delta := 0; skip_heroes := 0;
     skip_heroLookup := 0; skip_odds := 0; skip_favored := 0 |}.

Inductive SkipReason :=
  | blank | malformed | delta | heroes_count | heroLookup | odds | favored.

Definition bump (r : SkipReason) (k : SkipCounters) : SkipCounters :=
  let inc (r' : SkipReason) (n : Z) : Z :=
    match r, r' with
    | blank, blank | malformed, malformed | delta, delta
    | heroes_count, heroes_count | heroLookup, heroLookup
    | odds, odds | favored, favored => (n + 1)%Z
    | _, _ => n
    end in
  {| skip_blank := inc blank (skip_blank k);
     skip_malformed := inc malformed (skip_malformed k);
     skip_delta := inc delta (skip_delta k);
     skip_heroes := inc heroes_count (skip_heroes k);
     skip_heroLookup := inc heroLookup (skip_heroLookup k);
     skip_odds := inc odds (skip_odds k);
     skip_favored := inc favored (skip_favored k) |}.

(** The state the [lines.forEach] callback works on. *)
Record Loader := {
  matches : list Match;
  skipCounters : SkipCounters;
  missingHeroes : gmap string string;
}.

Definition skipLine (r : SkipReason) (missing : gmap string string) (st : Loader)
  : Loader :=
  {| matches := matches st; skipCounters := bump r (skipCounters st);
     missingHeroes := missing |}.

Definition isEmpty (s : string) : bool := String.eqb s "".

(** The callback of [lines.forEach] in [loadMatches]. *)
Definition loadLine (heroData : HeroData) (st : Loader) (line : Line) : Loader :=
  match line with
  | BlankLine => skipLine blank (missingHeroes st) st
  | ShortRow => skipLine malformed (missingHeroes st) st
  | FullRow row =>
    match row_delta row with
    | None => skipLine delta (missingHeroes st) st
    | Some deltaRaw =>
      let deltaAbs := Math_abs deltaRaw in
      let team1Heroes := row_team1_heroes row in
      let team2Heroes := row_team2_heroes row in
      if negb ((length team1Heroes =? 5)%nat && (length team2Heroes =? 5)%nat)
      then skipLine heroes_count (missingHeroes st) st
      else
        let '(team1Ids, missing1) :=
          heroNamesToIds team1Heroes heroData (missingHeroes st) in
        let '(team2Ids, missing2) := heroNamesToIds team2Heroes heroData missing1 in
        match team1Ids, team2Ids with
        | Some team1Ids, Some team2Ids =>
          let team1Counts := computeTeamCounts team1Ids team2Ids heroData in
          let team2Counts := computeTeamCounts team2Ids team1Ids heroData in
          let deltaFavTeam := row_deltaFavTeam row in
          let team1Name := row_team1 row in
          let team2Name := row_team2 row in
          if isEmpty deltaFavTeam || isEmpty team1Name || isEmpty team2Name
          then skipLine favored missing2 st
          else
            let deltaFav :=
              if String.eqb team1Name deltaFavTeam then Some true
              else if String.eqb team2Name deltaFavTeam then Some false
              else None in
            match deltaFav with
            | None => skipLine favored missing2 st
            | Some deltaFavIsTeam1 =>
              match row_team1_odds row, row_team2_odds row with
              | Some team1Odds, Some team2Odds =>
                if Qle_bool team1Odds 1 || Qle_bool team2Odds 1
                then skipLine odds missing2 st
                else
                  let favOdds := if deltaFavIsTeam1 then team1Odds else team2Odds in
                  let dogOdds := if deltaFavIsTeam1 then team2Odds else team1Odds in
                  {| matches := matches st ++ [
                       {| deltaAbs := deltaAbs;
                          deltaFavTeam := deltaFavTeam;
                          deltaDogTeam := if deltaFavIsTeam1 then team2Name else team1Name;
                          deltaFavIsTeam1 := deltaFavIsTeam1;
                          favOdds := favOdds;
                          dogOdds := dogOdds;
                          oddsRelation := classifyOddsRelation favOdds dogOdds;
                          winner := row_winner row;
                          team1Pos := fst team1Counts;
                          team1Neg := snd team1Counts;
                          team2Pos := fst team2Counts;
                          team2Neg := snd team2Counts |} ];
                     skipCounters := skipCounters st;
                     missingHeroes := missing2 |}
              | _, _ => skipLine odds missing2 st
              end
            end
        | _, _ => skipLine heroLookup missing2 st
        end
    end
  end.

Definition loader0 : Loader :=
  {| matches := []; skipCounters := skipCounters0; missingHeroes := ∅ |}.

(** [loadMatches]: the final state of the pass; the function returns its
    [matches] and logs its [skipCounters]. *)
Definition loadMatches (lines : list Line) (heroData : HeroData) : Loader :=
  fold_left (loadLine heroData) lines loader0.

(** *** Staking *)

Definition computeStake (bank : Q) (combo : Combo) (fibStep : Z) : M Q :=
  if Qle_bool bank 0 then ret 0
  else
    match stake combo with
    | flat flat_amount => ret (Qmin flat_amount bank)
    | pct_bankroll percent =>
        let wager := bank * percent in
        ret (Qmin wager bank)
    | fibonacci unit =>
        let* fibValue := getFibNumber fibStep in
        ret (inject_Z fibValue * unit)
    end.

(** *** The simulation loop *)

(** The local variables of [simulateStrategy]. *)
Record Sim := {
  bank : Q;
  bets : Z;
  wins : Z;
  peak : Q;
  maxDrawdown : Q;
  maxStake : Q;
  fibStep : Z;
  maxStepReached : Z;
}.

Definition sim0 : Sim :=
  {| bank := INITIAL_BANK; bets := 0; wins := 0; peak := INITIAL_BANK;
     maxDrawdown := 0; maxStake := 0; fibStep := 0; maxStepReached := 0 |}.

Definition oddsConditionFails (combo : Combo) (m : Match) : bool :=
  match odds_condition combo, oddsRelation m with
  | oc_favorite, rel_favorite => false
  | oc_favorite, _ => true
  | oc_underdog, rel_underdog => false
  | oc_underdog, _ => true
  | oc_any, _ => false
  end.

(** The guards of the loop body that [continue] before any stake is
    computed (lines 384-402). *)
Definition skipsMatch (combo : Combo) (deltaThreshold : Q) (m : Match) : bool :=
  Qlt_bool (deltaAbs m) deltaThreshold
  || oddsConditionFails combo m
  || negb (heroFilterSatisfied m (hero_filter combo))
  || Qle_bool (favOdds m) 1.

(** The part of the body that places a bet of [stake] (lines 410-441). *)
Definition placeBet (combo : Combo) (m : Match) (stake : Q) (s : Sim) : Sim :=
  let odds := favOdds m in
  let stepBefore := fibStep s in
  let bank1 := bank s - stake in
  let bets1 := (bets s + 1)%Z in
  let maxStake1 := if Qlt_bool (maxStake s) stake then stake else maxStake s in
  let betWon := String.eqb (winner m) (deltaFavTeam m) in
  let maxStepReached1 :=
    if is_fibonacci combo && (maxStepReached s <? stepBefore)%Z
    then stepBefore else maxStepReached s in
  let wins1 := if betWon then (wins s + 1)%Z else wins s in
  let bank2 := if betWon then bank1 + stake * odds else bank1 in
  let fibStep1 :=
    if is_fibonacci combo then
      if betWon then (if (stepBefore <=? 1)%Z then 0 else stepBefore - 2)%Z
      else (stepBefore + 1)%Z
    else fibStep s in
  let peak1 := if Qlt_bool (peak s) bank2 then bank2 else peak s in
  let maxDrawdown1 :=
    if Qlt_bool (peak s) bank2 then maxDrawdown s
    else
      let dd := peak s - bank2 in
      if Qlt_bool (maxDrawdown s) dd then dd else maxDrawdown s in
  {| bank := bank2; bets := bets1; wins := wins1; peak := peak1;
     maxDrawdown := maxDrawdown1; maxStake := maxStake1;
     fibStep := fibStep1; maxStepReached := maxStepReached1 |}.

(** One iteration of [for (const match of matches)] after the bust check. *)
Definition body (combo : Combo) (deltaThreshold : Q) (m : Match) (s : Sim) : M Sim :=
  if skipsMatch combo deltaThreshold m then ret s
  else
    let* desiredStake := computeStake (bank s) combo (fibStep s) in
    let stake := Qmin (Qmin desiredStake MAX_BET) (bank s) in
    if Qle_bool stake 0 then ret s
    else ret (placeBet combo m stake s).

Definition setBank (b : Q) (s : Sim) : Sim :=
  {| bank := b; bets := bets s; wins := wins s; peak := peak s;
     maxDrawdown := maxDrawdown s; maxStake := maxStake s;
     fibStep := fibStep s; maxStepReached := maxStepReached s |}.

(** The [for] loop with its [if (bank <= 0) { bank = 0; break; }]. *)
Fixpoint loop (combo : Combo) (deltaThreshold : Q) (matches : list Match) (s : Sim)
  : M Sim :=
  match matches with
  | [] => ret s
  | m :: rest =>
      if Qle_bool (bank s) 0 then ret (setBank 0 s)
      else
        let* s' := body combo deltaThreshold m s in
        loop combo deltaThreshold rest s'
  end.

Module Stats.
Record t := {
  strategy_group : string;
  hero_filter : HeroFilter;
  odds_condition : OddsCondition;
  delta_threshold : Q;
  bets : Z;
  wins : Z;
  win_pct : Z;
  final_bank : Z;
  max_drawdown : Z;
  max_stake : Z;
  max_step : Z;
}.
End Stats.

Definition summarize (combo : Combo) (deltaThreshold : Q) (s : Sim) : Stats.t :=
  let winPct :=
    if (bets s =? 0)%Z then 0%Z
    else Math_round ((inject_Z (wins s) / inject_Z (bets s)) * 100) in
  {| Stats.strategy_group := strategy_group combo;
     Stats.hero_filter := hero_filter combo;
     Stats.odds_condition := odds_condition combo;
     Stats.delta_threshold := deltaThreshold;
     Stats.bets := bets s;
     Stats.wins := wins s;
     Stats.win_pct := winPct;
     Stats.final_bank := Math_round (bank s);
     Stats.max_drawdown := Math_round (maxDrawdown s);
     Stats.max_stake := Math_round (maxStake s);
     Stats.max_step := if is_fibonacci combo then maxStepReached s else 0%Z |}.

Definition simulateStrategy (matches : list Match) (combo : Combo) (deltaThreshold : Q)
  : M Stats.t :=
  let* s := loop combo deltaThreshold matches sim0 in
  ret (summarize combo deltaThreshold s).

(** [for (const x of xs) rows.push(f x)] in the monad. *)
Fixpoint forEach {A B} (f : A -> M B) (xs : list A) : M (list B) :=
  match xs with
  | [] => ret []
  | x :: xs' =>
      let* y := f x in
      let* ys := forEach f xs' in
      ret (y :: ys)
  end.

(** The rows of [main], header line left out: for each combo, for each
    threshold, one [simulateStrategy]. *)
Definition main_rows (matches : list Match) : M (list Stats.t) :=
  let* rows := forEach (fun combo =>
      forEach (fun deltaThreshold => simulateStrategy matches combo deltaThreshold)
              DELTA_THRESHOLDS)
    buildCombos in
  ret (concat rows).

End Sweep.

(** ** Exceptions

    [throw new Error(msg)] and the TypeError of reading a property of
    [undefined]; none of the scripts catches either. *)

Inductive Exn (A : Type) : Type :=
  | Ok (a : A)
  | Throw (msg : string).
Arguments Ok {A} a.
Arguments Throw {A} msg.

Definition ebind {A B} (m : Exn A) (k : A -> Exn B) : Exn B :=
  match m with
  | Ok a => k a
  | Throw msg => Throw msg
  end.

Notation "'try*' x ':=' m 'in' k" := (ebind m (fun x => k))
  (at level 10, x name, m at level 100, k at level 200).

(** ** run_delta_pct_custom.js (exports [runWithOptions: execute]) *)

Module DeltaPctCustom.

Definition START_BANK : Q := 1000.

(** The variables the matrix script defines, and [idxMap]. *)
Record Matrix := {
  heroes : list string;
  heroes_wr : list Q;
  win_rates : WinRates;
}.

Definition idxMap (mx : Matrix) : gmap string nat := indexHeroes 0 (heroes mx) ∅.

(** The [for (const opp of opponentHeroes)] loop of [heroScore]. *)
Fixpoint heroScore_loop (mx : Matrix) (row : list (option Cell))
    (opponentHeroes : list string) (adv : Q) : Exn Q :=
  match opponentHeroes with
  | [] => Ok adv
  | opp :: rest =>
      match idxMap mx !! normalizeHeroName opp with
      | None => Throw ("Hero not found: " ++ opp)
      | Some oppIdx =>
          match row !! oppIdx with
          | Some (Some cell) =>
              heroScore_loop mx row rest (adv + cell_advantage cell)
          | _ => heroScore_loop mx row rest adv
          end
      end
  end.

Definition heroScore (mx : Matrix) (heroName : string) (opponentHeroes : list string)
  : Exn Q :=
  match idxMap mx !! normalizeHeroName heroName with
  | None => Throw ("Hero not found: " ++ heroName)
  | Some idx =>
      let wr := default 50 (heroes_wr mx !! idx) in
      match win_rates mx !! idx with
      | Some row =>
          try* adv := heroScore_loop mx row opponentHeroes 0 in
          Ok (wr + adv)
      | None => Ok (wr + 0)
      end
  end.

(** [team.reduce((sum, hero) => sum + heroScore(hero, other), 0)]. *)
Fixpoint teamScore (mx : Matrix) (team other : list string) (sum : Q) : Exn Q :=
  match team with
  | [] => Ok sum
  | hero :: rest =>
      try* sc := heroScore mx hero other in
      teamScore mx rest other (sum + sc)
  end.

(** A CSV row object; [team1_heroes] and [team2_heroes] hold the result of
    [split('|').map(h => h.trim())], the odds the result of [parseFloat]
    ([None] = NaN).  Date, series and map columns only order the corpus. *)
Record Match := {
  team1 : string;
  team2 : string;
  team1_heroes : list string;
  team2_heroes : list string;
  winner : string;
  team1_odds : option Q;
  team2_odds : option Q;
}.

(** [delta(match)]: [Ok None] is the [null] result. *)
Definition delta (mx : Matrix) (m : Match) : Exn (option Q) :=
  let t1 := team1_heroes m in
  let t2 := team2_heroes m in
  if negb ((length t1 =? 5)%nat && (length t2 =? 5)%nat) then Ok None
  else
    try* s1 := teamScore mx t1 t2 0 in
    try* s2 := teamScore mx t2 t1 0 in
    Ok (Some (toFixed 4 (s1 - s2))).

(** The options object; [execute] reads [maxBet] (and the month bounds and
    file names, which act before and after the simulation).  [minDelta] is
    the extra key that run_delta_pct_custom_cli20.js passes. *)
Record Opts := {
  maxBet : Q;
  minDelta : option Q;
}.

Record BetRecord := {
  rec_delta : Q;
  rec_favored : string;
  rec_odds : Q;
  rec_stake : Q;
  rec_won : bool;
  rec_payout : Q;
  rec_bank_before : Q;
  rec_bank_after : Q;
}.

(** The local variables of [execute]. *)
Record Sim := {
  bank : Q;
  peak : Q;
  maxDrawdown : Q;
  bets : Z;
  wins : Z;
  losses : Z;
  skipped : Z;
  betRecords : list BetRecord;
}.

Definition sim0 : Sim :=
  {| bank := START_BANK; peak := START_BANK; maxDrawdown := 0; bets := 0;
     wins := 0; losses := 0; skipped := 0; betRecords := [] |}.

Definition skip (s : Sim) : Sim :=
  {| bank := bank s; peak := peak s; maxDrawdown := maxDrawdown s; bets := bets s;
     wins := wins s; losses := losses s; skipped := (skipped s + 1)%Z;
     betRecords := betRecords s |}.

(** [opts.maxBet > 0 ? opts.maxBet : Infinity]; [None] is [Infinity]. *)
Definition maxBetCap (opts : Opts) : option Q :=
  if Qlt_bool 0 (maxBet opts) then Some (maxBet opts) else None.

(** Lines 219-223: the stake of a bet, floored. *)
Definition stakeFor (opts : Opts) (bank delta : Q) : Q :=
  let pct := Qmin (Math_abs delta / 1000) 1 in
  let stake := bank * pct in
  let stake := match maxBetCap opts with
               | Some cap => if Qlt_bool cap stake then cap else stake
               | None => stake
               end in
  let stake := if Qlt_bool bank stake then bank else stake in
  inject_Z (Math_floor stake).

(** Lines 226-277: the bet itself; the boolean is [true] when the loop
    [break]s after it. *)
Definition settle (m : Match) (delta : Q) (favored : string) (favoredOdds stake : Q)
    (s : Sim) : Sim * bool :=
  let bankBefore := bank s in
  let bank1 := bank s - stake in
  let won := String.eqb (winner m) favored in
  let payout := if won then inject_Z (Math_floor (stake * favoredOdds)) else 0 in
  let bank2 := if won then bank1 + payout else bank1 in
  let wins1 := if won then (wins s + 1)%Z else wins s in
  let losses1 := if won then losses s else (losses s + 1)%Z in
  let bets1 := (bets s + 1)%Z in
  let peak1 := if Qlt_bool (peak s) bank2 then bank2 else peak s in
  let drawdown := peak1 - bank2 in
  let maxDrawdown1 :=
    if Qlt_bool (maxDrawdown s) drawdown then drawdown else maxDrawdown s in
  let record :=
    {| rec_delta := delta; rec_favored := favored; rec_odds := favoredOdds;
       rec_stake := stake; rec_won := won; rec_payout := payout;
       rec_bank_before := bankBefore; rec_bank_after := bank2 |} in
  ({| bank := bank2; peak := peak1; maxDrawdown := maxDrawdown1; bets := bets1;
      wins := wins1; losses := losses1; skipped := skipped s;
      betRecords := betRecords s ++ [record] |},
   Qle_bool bank2 0).

(** One iteration of [for (const match of matches)]. *)
Definition body (opts : Opts) (mx : Matrix) (m : Match) (s : Sim) : Exn (Sim * bool) :=
  try* d := delta mx m in
  match d with
  | None => Ok (skip s, false)
  | Some delta =>
      if Qeq_bool delta 0 then Ok (skip s, false)
      else
        let favored := if Qlt_bool 0 delta then team1 m else team2 m in
        match (if Qlt_bool 0 delta then team1_odds m else team2_odds m) with
        | None => Ok (skip s, false)
        | Some favoredOdds =>
            if Qle_bool favoredOdds 1 then Ok (skip s, false)
            else
              let stake := stakeFor opts (bank s) delta in
              if Qle_bool stake 0 then Ok (s, false)
              else Ok (settle m delta favored favoredOdds stake s)
        end
  end.

Fixpoint loop (opts : Opts) (mx : Matrix) (matches : list Match) (s : Sim) : Exn Sim :=
  match matches with
  | [] => Ok s
  | m :: rest =>
      try* r := body opts mx m s in
      if snd r then Ok (fst r) else loop opts mx rest (fst r)
  end.

(** The object [execute] returns, file names and constant labels left out. *)
Record Summary := {
  delta_threshold : Q;
  sum_bets : Z;
  sum_wins : Z;
  win_pct : Q;
  final_bank : Q;
  max_drawdown : Q;
  max_stake : Q;
  sum_skipped : Z;
}.

Definition summarize (s : Sim) : Summary :=
  {| delta_threshold := 0;
     sum_bets := bets s;
     sum_wins := wins s;
     win_pct := if (bets s =? 0)%Z then 0
                else toFixed 2 ((inject_Z (wins s) / inject_Z (bets s)) * 100);
     final_bank := bank s;
     max_drawdown := maxDrawdown s;
     max_stake := fold_left (fun mx r => Qmax mx (rec_stake r)) (betRecords s) 0;
     sum_skipped := skipped s |}.

(** [execute(opts)] on the corpus [loadMatches] returned, filtered by month
    and sorted, and on the matrix [loadMatrix] read. *)
Definition execute (opts : Opts) (matches : list Match) (mx : Matrix) : Exn Summary :=
  try* s := loop opts mx matches sim0 in
  Ok (summarize s).

(** The call of run_delta_pct_custom_cli20.js. *)
Definition cli20_opts : Opts := {| maxBet := 500000; minDelta := Some 20 |}.

End DeltaPctCustom.

(** ** delta_pct_strategy.js *)

Module DeltaPctStrategy.

Definition START_BANK : Q := 1000.
Definition MAX_BET : Q := 10000.

(** Its [loadMatrix] is the one of run_delta_pct_custom.js, statement for
    statement, and its rows have the same columns. *)
Definition delta := DeltaPctCustom.delta.

Record Sim := {
  bank : Q;
  peak : Q;
  trough : Q;
  maxDrawdown : Q;
  bets : Z;
  wins : Z;
  losses : Z;
  skipped : Z;
  maxStake : Q;
}.

Definition sim0 : Sim :=
  {| bank := START_BANK; peak := START_BANK; trough := START_BANK;
     maxDrawdown := 0; bets := 0; wins := 0; losses := 0; skipped := 0;
     maxStake := 0 |}.

Definition skip (s : Sim) : Sim :=
  {| bank := bank s; peak := peak s; trough := trough s;
     maxDrawdown := maxDrawdown s; bets := bets s; wins := wins s;
     losses := losses s; skipped := (skipped s + 1)%Z; maxStake := maxStake s |}.

(** Lines 156-160. *)
Definition stakeFor (bank delta : Q) : Q :=
  let pct := Qmin (Math_abs delta / 1000) 1 in
  let stake := bank * pct in
  let stake := if Qlt_bool MAX_BET stake then MAX_BET else stake in
  let stake := if Qlt_bool bank stake then bank else stake in
  inject_Z (Math_floor stake).

(** Lines 163-201. *)
Definition settle (m : DeltaPctCustom.Match) (favoredTeam : string)
    (favoredOdds stake : Q) (s : Sim) : Sim * bool :=
  let bets1 := (bets s + 1)%Z in
  let bank1 := bank s - stake in
  let won := String.eqb (DeltaPctCustom.winner m) favoredTeam in
  let payout := if won then inject_Z (Math_floor (stake * favoredOdds)) else 0 in
  let bank2 := if won then bank1 + payout else bank1 in
  let wins1 := if won then (wins s + 1)%Z else wins s in
  let losses1 := if won then losses s else (losses s + 1)%Z in
  let peak1 := if Qlt_bool (peak s) bank2 then bank2 else peak s in
  let trough1 := if Qlt_bool bank2 (trough s) then bank2 else trough s in
  let drawdown := peak1 - bank2 in
  let maxDrawdown1 :=
    if Qlt_bool (maxDrawdown s) drawdown then drawdown else maxDrawdown s in
  let maxStake1 := if Qlt_bool (maxStake s) stake then stake else maxStake s in
  ({| bank := bank2; peak := peak1; trough := trough1; maxDrawdown := maxDrawdown1;
      bets := bets1; wins := wins1; losses := losses1; skipped := skipped s;
      maxStake := maxStake1 |},
   Qle_bool bank2 0).

Definition body (mx : DeltaPctCustom.Matrix) (m : DeltaPctCustom.Match) (s : Sim)
  : Exn (Sim * bool) :=
  try* d := delta mx m in
  match d with
  | None => Ok (skip s, false)
  | Some delta =>
      if Qeq_bool delta 0 then Ok (skip s, false)
      else
        let favoredTeam :=
          if Qlt_bool 0 delta then DeltaPctCustom.team1 m else DeltaPctCustom.team2 m in
        let favoredOdds :=
          if Qlt_bool 0 delta then DeltaPctCustom.team1_odds m
          else DeltaPctCustom.team2_odds m in
        let oppOdds :=
          if Qlt_bool 0 delta then DeltaPctCustom.team2_odds m
          else DeltaPctCustom.team1_odds m in
        match favoredOdds, oppOdds with
        | Some favoredOdds, Some oppOdds =>
            if Qle_bool favoredOdds 1 || Qle_bool oppOdds 1 then Ok (skip s, false)
            else
              let stake := stakeFor (bank s) delta in
              if Qle_bool stake 0 then Ok (s, false)
              else Ok (settle m favoredTeam favoredOdds stake s)
        | _, _ => Ok (skip s, false)
        end
  end.

Fixpoint loop (mx : DeltaPctCustom.Matrix) (matches : list DeltaPctCustom.Match)
    (s : Sim) : Exn Sim :=
  match matches with
  | [] => Ok s
  | m :: rest =>
      try* r := body mx m s in
      if snd r then Ok (fst r) else loop mx rest (fst r)
  end.

(** [run()] up to the summary row; the file writes are left out. *)
Definition run (matches : list DeltaPctCustom.Match) (mx : DeltaPctCustom.Matrix)
  : Exn Sim :=
  loop mx matches sim0.

End DeltaPctStrategy.

(** ** build_cs_matrix.js *)

Module BuildCsMatrix.

(** [{ games, wins }], for a hero and for an ordered pair of heroes. *)
Record Counter := {
  games : Z;
  wins : Z;
}.

Definition counter0 : Counter := {| games := 0; wins := 0 |}.

(** One value of the input object: the [heroId]s of [radiantRoles] and
    [direRoles], and [Boolean(match.radiantWin)]. *)
Record RawMatch := {
  radiantRoles : list Z;
  direRoles : list Z;
  radiantWin : bool;
}.

Abbreviation HeroMap := (gmap Z nat).

Fixpoint normalizeHeroIds_loop (ids : list nat) (rawHeroes : list Z) (heroMap : HeroMap)
  : option (list nat) :=
  match rawHeroes with
  | [] => if (length ids =? 5)%nat then Some ids else None
  | heroId :: rest =>
      match heroMap !! heroId with
      | None => None
      | Some mapped => normalizeHeroIds_loop (ids ++ [mapped]) rest heroMap
      end
  end.

Definition normalizeHeroIds (rawHeroes : list Z) (heroMap : HeroMap) :=
  normalizeHeroIds_loop [] rawHeroes heroMap.

Abbreviation PairStats := (list (list (option Counter))).

Definition TypeError : string := "TypeError: Cannot read properties of undefined".

(** [updateHero(id, win)]: [heroStats[id]] is [undefined] past the end of
    the array, and reading [hs.games] then throws. *)
Definition updateHero (id : nat) (win : bool) (heroStats : list Counter)
  : Exn (list Counter) :=
  match heroStats !! id with
  | None => Throw TypeError
  | Some hs =>
      Ok (<[id := {| games := (games hs + 1)%Z;
                     wins := if win then (wins hs + 1)%Z else wins hs |}]> heroStats)
  end.

Fixpoint updateHeroes (ids : list nat) (win : bool) (heroStats : list Counter)
  : Exn (list Counter) :=
  match ids with
  | [] => Ok heroStats
  | id :: rest =>
      try* heroStats' := updateHero id win heroStats in
      updateHeroes rest win heroStats'
  end.

(** [let cell = pairStats[a][b]; if (!cell) cell = pairStats[a][b] = {games:
    0, wins: 0}; cell.games += 1; if (win) cell.wins += 1;].  Reading a row
    past the end of [pairStats] throws.  The row itself is written at [b]
    with the list update, which leaves the row alone when [b] is past its
    end, where JavaScript would grow it: [updateHero] has thrown before the
    pair loops for such a [b]. *)
Definition bumpCell (a b : nat) (win : bool) (pairStats : PairStats) : Exn PairStats :=
  match pairStats !! a with
  | None => Throw TypeError
  | Some row =>
      let cell := match row !! b with
                  | Some (Some cell) => cell
                  | _ => counter0
                  end in
      let cell' := {| games := (games cell + 1)%Z;
                      wins := if win then (wins cell + 1)%Z else wins cell |} in
      Ok (<[a := <[b := Some cell']> row]> pairStats)
  end.

(** The body of [for (const d of dire)]. *)
Definition updatePair (r d : nat) (radiantWin : bool) (pairStats : PairStats)
  : Exn PairStats :=
  try* pairStats1 := bumpCell r d radiantWin pairStats in
  bumpCell d r (negb radiantWin) pairStats1.

Fixpoint forDire (r : nat) (dire : list nat) (radiantWin : bool) (pairStats : PairStats)
  : Exn PairStats :=
  match dire with
  | [] => Ok pairStats
  | d :: rest =>
      try* pairStats' := updatePair r d radiantWin pairStats in
      forDire r rest radiantWin pairStats'
  end.

Fixpoint forRadiant (radiant dire : list nat) (radiantWin : bool) (pairStats : PairStats)
  : Exn PairStats :=
  match radiant with
  | [] => Ok pairStats
  | r :: rest =>
      try* pairStats' := forDire r dire radiantWin pairStats in
      forRadiant rest dire radiantWin pairStats'
  end.

(** The variables of [buildMatrix] that its loop updates. *)
Record Build := {
  heroStats : list Counter;
  pairStats : PairStats;
  processed : Z;
  skipped : Z;
}.

Definition build0 (heroCount : nat) : Build :=
  {| heroStats := replicate heroCount counter0;
     pairStats := replicate heroCount (replicate heroCount None);
     processed := 0; skipped := 0 |}.

(** One iteration of [for (const match of Object.values(raw))]. *)
Definition ingest (heroMap : HeroMap) (m : RawMatch) (b : Build) : Exn Build :=
  match normalizeHeroIds (radiantRoles m) heroMap,
        normalizeHeroIds (direRoles m) heroMap with
  | Some radiant, Some dire =>
      try* hs1 := updateHeroes radiant (radiantWin m) (heroStats b) in
      try* hs2 := updateHeroes dire (negb (radiantWin m)) hs1 in
      try* ps := forRadiant radiant dire (radiantWin m) (pairStats b) in
      Ok {| heroStats := hs2; pairStats := ps;
            processed := (processed b + 1)%Z; skipped := skipped b |}
  | _, _ =>
      Ok {| heroStats := heroStats b; pairStats := pairStats b;
            processed := processed b; skipped := (skipped b + 1)%Z |}
  end.

Fixpoint ingestAll (heroMap : HeroMap) (raw : list RawMatch) (b : Build) : Exn Build :=
  match raw with
  | [] => Ok b
  | m :: rest =>
      try* b' := ingest heroMap m b in
      ingestAll heroMap rest b'
  end.

(** What [buildMatrix] returns ([heroes] and [update_time] are passed
    through). *)
Record Built := {
  heroesWr : list Q;
  winRates : WinRates;
  out_processed : Z;
  out_skipped : Z;
}.

Definition heroWr (hs : Counter) : Q :=
  if (games hs =? 0)%Z then toFixed 2 50
  else toFixed 2 (inject_Z (wins hs) / inject_Z (games hs) * 100).

Definition cellOut (cell : option Counter) : option Cell :=
  match cell with
  | None => None
  | Some cell =>
      if (games cell =? 0)%Z then None
      else
        let wr := inject_Z (wins cell) / inject_Z (games cell) * 100 in
        let adv := wr - 50 in
        Some {| cell_advantage := toFixed 4 adv;
                cell_winRatePct := toFixed 4 wr;
                cell_games := games cell |}
  end.

Definition buildMatrix (raw : list RawMatch) (heroCount : nat) (heroMap : HeroMap)
  : Exn Built :=
  try* b := ingestAll heroMap raw (build0 heroCount) in
  Ok {| heroesWr := map heroWr (heroStats b);
        winRates := map (map cellOut) (pairStats b);
        out_processed := processed b;
        out_skipped := skipped b |}.


(** [games] of the counter [(i, j)] of [pairStats], 0 where there is none. *)
Definition pairGames (pairStats : PairStats) (i j : nat) : Z :=
  match pairStats !! i with
  | Some row =>
      match row !! j with
      | Some (Some cell) => games cell
      | _ => 0%Z
      end
  | None => 0%Z
  end.

(** 1 at the pair [(a, b)], 0 elsewhere. *)
Definition hit (i j a b : nat) : Z :=
  if decide (i = a /\ j = b) then 1%Z else 0%Z.


(** [pairStats] is an [n] by [n] array. *)
Definition square (n : nat) (pairStats : PairStats) : Prop :=
  length pairStats = n /\ Forall (fun row => length row = n) pairStats.

End BuildCsMatrix.

(** ** Specification-level definitions

    The standard Fibonacci sequence 1, 1, 2, 3, 5, ... as a pure function,
    and the strategy simulation written over it instead of over the shared
    memo table. *)

Module SweepPure.
Import Sweep.

Fixpoint fib (n : nat) : Z :=
  match n with
  | O => 1
  | S n' =>
      match n' with
      | O => 1
      | S n'' => fib n' + fib n''
      end
  end%Z.

Definition computeStake_pure (bank : Q) (combo : Combo) (fibStep : Z) : Q :=
  if Qle_bool bank 0 then 0
  else
    match stake combo with
    | flat flat_amount => Qmin flat_amount bank
    | pct_bankroll percent => Qmin (bank * percent) bank
    | fibonacci unit => inject_Z (fib (Z.to_nat fibStep)) * unit
    end.

(** The stake a bet is placed with, after the cap and the bankroll clip. *)
Definition stakeOf (combo : Combo) (s : Sim) : Q :=
  Qmin (Qmin (computeStake_pure (bank s) combo (fibStep s)) MAX_BET) (bank s).

Definition body_pure (combo : Combo) (deltaThreshold : Q) (m : Match) (s : Sim) : Sim :=
  if skipsMatch combo deltaThreshold m then s
  else if Qle_bool (stakeOf combo s) 0 then s
  else placeBet combo m (stakeOf combo s) s.

Fixpoint loop_pure (combo : Combo) (deltaThreshold : Q) (matches : list Match) (s : Sim)
  : Sim :=
  match matches with
  | [] => s
  | m :: rest =>
      if Qle_bool (bank s) 0 then setBank 0 s
      else loop_pure combo deltaThreshold rest (body_pure combo deltaThreshold m s)
  end.

(** The memo table after an arbitrary history of earlier calls. *)
Definition cache_after (history : list Z) : FibCache :=
  fold_left (fun c step => snd (getFibNumber step c)) history fibCache0.

(** The table holds a prefix of the sequence, at least its first two terms. *)
Definition cache_ok (c : FibCache) : Prop :=
  (2 <= length c)%nat /\ forall i, (i < length c)%nat -> cache_at c i = fib i.

(** The number of matches a run at [deltaThreshold] does not skip by its
    guards. *)
Fixpoint eligible (combo : Combo) (deltaThreshold : Q) (matches : list Match) : Z :=
  match matches with
  | [] => 0
  | m :: rest =>
      (if skipsMatch combo deltaThreshold m then 0 else 1)
      + eligible combo deltaThreshold rest
  end%Z.


End SweepPure.

(** The per-hero advantage in the words of section 4.3 of the
    specification: the sum of [matrix[hero][opp].advantage] over the opponents
    [opp] whose cell is present, the cell being looked up in the hero's own
    row; absent cells contribute 0. *)

Module ScorerSpec.

Definition cellAdvantage (matrix : WinRates) (row col : nat) : Q :=
  match matrix !! row with
  | Some r =>
      match r !! col with
      | Some (Some cell) => cell_advantage cell
      | _ => 0
      end
  | None => 0
  end.

Definition sumQ (xs : list Q) : Q := fold_right Qplus 0 xs.

Definition perHeroAdvantage (matrix : WinRates) (hero : nat) (opponents : list nat) : Q :=
  sumQ (map (fun opp => cellAdvantage matrix hero opp) opponents).


End ScorerSpec.

(** The strategy list in the words of section 4.4 of the specification:
    the full cross-product of the five staking policies with the three hero
    filters and the three odds conditions, policy first, then hero filter,
    then odds condition. *)

Module GeneratorSpec.
Import Sweep.

Definition policies : list (string * Stake) :=
  [flat100 100; pct5; flat5 flatFiveAmount; fib1 1; fib1 5].
Definition heroFilters : list HeroFilter := [hf_none; hf_4p4m; hf_5p5m].

Definition crossProduct : list Combo :=
  flat_map (fun policy =>
    flat_map (fun heroFilter => pushEach policy heroFilter) heroFilters) policies.

(** The twelve (policy, hero filter) groups [buildCombos] pushes, in its
    order. *)
Definition groups : list ((string * Stake) * HeroFilter) :=
  [ (flat100 100, hf_none); (pct5, hf_none);
    (flat100 100, hf_4p4m); (flat5 flatFiveAmount, hf_4p4m);
    (flat100 100, hf_5p5m); (flat5 flatFiveAmount, hf_5p5m);
    (fib1 1, hf_none); (fib1 1, hf_4p4m); (fib1 1, hf_5p5m);
    (fib1 5, hf_none); (fib1 5, hf_4p4m); (fib1 5, hf_5p5m) ].

(** The key columns of a summary row. *)
Definition rowKey (r : Stats.t) : string * HeroFilter * OddsCondition * Q :=
  (Stats.strategy_group r, Stats.hero_filter r, Stats.odds_condition r,
   Stats.delta_threshold r).
Definition comboKey (combo : Combo) (T : Q) : string * HeroFilter * OddsCondition * Q :=
  (strategy_group combo, hero_filter combo, odds_condition combo, T).

End GeneratorSpec.

(** ** Concrete inputs

    Small corpora and matrices on which the theorems below are instantiated
    and the scripts evaluated. *)

Module Examples.

(** A sweep match won or lost by the delta-favoured team "Alpha". *)
Definition sweepMatch (deltaAbs favOdds : Q) (won : bool) : Sweep.Match :=
  {| Sweep.deltaAbs := deltaAbs;
     Sweep.deltaFavTeam := "Alpha";
     Sweep.deltaDogTeam := "Beta";
     Sweep.deltaFavIsTeam1 := true;
     Sweep.favOdds := favOdds;
     Sweep.dogOdds := 2;
     Sweep.oddsRelation := Sweep.classifyOddsRelation favOdds 2;
     Sweep.winner := if won then "Alpha" else "Beta";
     Sweep.team1Pos := 5; Sweep.team1Neg := 0;
     Sweep.team2Pos := 0; Sweep.team2Neg := 5 |}%string.

(** Combos 1, 4 and 19 of [buildCombos]. *)
Definition flat100_any : Sweep.Combo :=
  {| Sweep.strategy_group := "Flat100"; Sweep.stake := Sweep.flat 100;
     Sweep.hero_filter := Sweep.hf_none; Sweep.odds_condition := Sweep.oc_any |}.
Definition fibo1_any : Sweep.Combo :=
  {| Sweep.strategy_group := "Fibo1"; Sweep.stake := Sweep.fibonacci 1;
     Sweep.hero_filter := Sweep.hf_none; Sweep.odds_condition := Sweep.oc_any |}.

(** Ten lost matches of delta 5, then eleven won matches of delta 50. *)
Definition ten_losses : list Sweep.Match := replicate 10 (sweepMatch 5 2 false).
Definition eleven_wins : list Sweep.Match := replicate 11 (sweepMatch 50 2 true).
Definition bust_corpus : list Sweep.Match := ten_losses ++ eleven_wins.


(** Four lost Fibo1 bets, then a fifth bet, won. *)
Definition after_four_losses : Sweep.Sim :=
  fst (Sweep.loop fibo1_any 0 (replicate 4 (sweepMatch 10 2 false))
         Sweep.sim0 Sweep.fibCache0).
Definition after_fifth_bet : Sweep.Sim :=
  fst (Sweep.body fibo1_any 0 (sweepMatch 10 2 true) after_four_losses Sweep.fibCache0).

(** A populated cell of advantage [adv] over 20 games. *)
Definition cell (adv : Q) : option Cell :=
  Some {| cell_advantage := adv; cell_winRatePct := 50 + adv; cell_games := 20 |}.

(** Ten heroes for the delta-percentage simulators; only "Axe" has a global
    win rate other than 50, so a match of the first five against the last
    five has delta 10. *)
Definition ten_names : list string :=
  ["Axe"; "Bane"; "Clinkz"; "Doom"; "Enigma";
   "Huskar"; "Io"; "Jakiro"; "Kunkka"; "Lina"]%string.
Definition ten_matrix : DeltaPctCustom.Matrix :=
  {| DeltaPctCustom.heroes := ten_names;
     DeltaPctCustom.heroes_wr := [60; 50; 50; 50; 50; 50; 50; 50; 50; 50];
     DeltaPctCustom.win_rates := replicate 10 (replicate 10 None) |}.
Definition delta10_match : DeltaPctCustom.Match :=
  {| DeltaPctCustom.team1 := "Alpha"; DeltaPctCustom.team2 := "Beta";
     DeltaPctCustom.team1_heroes := ["Axe"; "Bane"; "Clinkz"; "Doom"; "Enigma"];
     DeltaPctCustom.team2_heroes := ["Huskar"; "Io"; "Jakiro"; "Kunkka"; "Lina"];
     DeltaPctCustom.winner := "Alpha";
     DeltaPctCustom.team1_odds := Some 2; DeltaPctCustom.team2_odds := Some 2 |}%string.
(** The same match with a hero the matrix does not list. *)
Definition unresolved_match : DeltaPctCustom.Match :=
  {| DeltaPctCustom.team1 := "Alpha"; DeltaPctCustom.team2 := "Beta";
     DeltaPctCustom.team1_heroes := ["Axe"; "Bane"; "Clinkz"; "Doom"; "Enigma"];
     DeltaPctCustom.team2_heroes := ["Huskar"; "Io"; "Jakiro"; "Kunkka"; "Zeus"];
     DeltaPctCustom.winner := "Alpha";
     DeltaPctCustom.team1_odds := Some 2; DeltaPctCustom.team2_odds := Some 2 |}%string.


(** The ten heroes with one populated pair of cells: "Axe" (0) has advantage
    +5 over "Huskar" (5), and "Huskar" -5 over "Axe"; and a CSV row of the
    first five heroes against the last five. *)
Definition axe_huskar : WinRates :=
  <[0%nat := <[5%nat := cell 5]> (replicate 10 None)]>
    (<[5%nat := <[0%nat := cell (-5)]> (replicate 10 None)]>
       (replicate 10 (replicate 10 None))).
Definition axe_heroData : Sweep.HeroData :=
  Sweep.loadCsData ten_names [50; 50; 50; 50; 50; 50; 50; 50; 50; 50] axe_huskar.
Definition axe_row : Sweep.Row :=
  {| Sweep.row_team1 := "Alpha"; Sweep.row_team2 := "Beta";
     Sweep.row_team1_heroes := ["Axe"; "Bane"; "Clinkz"; "Doom"; "Enigma"];
     Sweep.row_team2_heroes := ["Huskar"; "Io"; "Jakiro"; "Kunkka"; "Lina"];
     Sweep.row_winner := "Alpha"; Sweep.row_delta := Some 5;
     Sweep.row_deltaFavTeam := "Alpha";
     Sweep.row_team1_odds := Some 2; Sweep.row_team2_odds := Some 2 |}%string.

(** The ten heroes with "Axe" at a global win rate of 2000, so that the
    delta of the match is 1950 and the stake the whole bankroll; the match is
    lost by the favoured side. *)
Definition allin_matrix : DeltaPctCustom.Matrix :=
  {| DeltaPctCustom.heroes := ten_names;
     DeltaPctCustom.heroes_wr := [2000; 50; 50; 50; 50; 50; 50; 50; 50; 50];
     DeltaPctCustom.win_rates := replicate 10 (replicate 10 None) |}.
Definition lost_match : DeltaPctCustom.Match :=
  {| DeltaPctCustom.team1 := "Alpha"; DeltaPctCustom.team2 := "Beta";
     DeltaPctCustom.team1_heroes := ["Axe"; "Bane"; "Clinkz"; "Doom"; "Enigma"];
     DeltaPctCustom.team2_heroes := ["Huskar"; "Io"; "Jakiro"; "Kunkka"; "Lina"];
     DeltaPctCustom.winner := "Beta";
     DeltaPctCustom.team1_odds := Some 2; DeltaPctCustom.team2_odds := Some 2 |}%string.

(** A hero map for ten heroes (STRATZ ids 1..10 to indices 0..9) and one
    match of heroes 1..5 against 6..10, won by the radiant side. *)
Definition ten_heroMap : gmap Z nat :=
  list_to_map [(1%Z, 0%nat); (2%Z, 1%nat); (3%Z, 2%nat); (4%Z, 3%nat); (5%Z, 4%nat);
               (6%Z, 5%nat); (7%Z, 6%nat); (8%Z, 7%nat); (9%Z, 8%nat); (10%Z, 9%nat)].
Definition one_raw_match : BuildCsMatrix.RawMatch :=
  {| BuildCsMatrix.radiantRoles := [1; 2; 3; 4; 5]%Z;
     BuildCsMatrix.direRoles := [6; 7; 8; 9; 10]%Z;
     BuildCsMatrix.radiantWin := true |}.

End Examples.

(** ** CSV lines and the match order (run_delta_pct_custom.js)

    [parseCSVLine] and [toCSV] are the same in delta_pct_strategy.js, and
    the sweep's [parseCsvLine] is [parseCSVLine] under another name.  A
    JavaScript string is the list of its characters; the code tells only
    the comma and the double quote apart from the rest. *)

Module CsvIO.

Abbreviation Str := (list ascii).

Definition quote : ascii := "034"%char.
Definition comma : ascii := ","%char.
Definition newline : ascii := "010"%char.

(** The [for] loop of [parseCSVLine] from index [i] on, [line] being the
    characters from [i]; the branch that does [i++] skips the next
    character too. *)
Fixpoint parseCSVLine_loop (line : Str) (current : Str) (inQuotes : bool)
    (result : list Str) : list Str :=
  match line with
  | [] => result ++ [current]
  | ch :: rest =>
      if Ascii.eqb ch quote then
        match inQuotes, rest with
        | true, next :: rest' =>
            if Ascii.eqb next quote
            then parseCSVLine_loop rest' (current ++ [quote]) inQuotes result
            else parseCSVLine_loop rest current (negb inQuotes) result
        | _, _ => parseCSVLine_loop rest current (negb inQuotes) result
        end
      else if Ascii.eqb ch comma && negb inQuotes
      then parseCSVLine_loop rest [] inQuotes (result ++ [current])
      else parseCSVLine_loop rest (current ++ [ch]) inQuotes result
  end.

Definition parseCSVLine (line : Str) : list Str :=
  parseCSVLine_loop line [] false [].

(** [Array.prototype.join]. *)
Fixpoint join (sep : Str) (parts : list Str) : Str :=
  match parts with
  | [] => []
  | [part] => part
  | part :: rest => part ++ sep ++ join sep rest
  end.

Definition includes (ch : ascii) (str : Str) : bool := existsb (Ascii.eqb ch) str.

(** [str.replace] of every double quote by two of them. *)
Definition doubleQuotes (str : Str) : Str :=
  flat_map (fun ch => if Ascii.eqb ch quote then [quote; quote] else [ch]) str.

(** A record of [toCSV]: [String(rec[key])] where [rec[key]] is neither
    [undefined] nor [null]. *)
Abbreviation Rec := (gmap string Str).

(** The callback of [header.map] in [toCSV]. *)
Definition field (rec : Rec) (key : string) : Str :=
  match rec !! key with
  | None => []
  | Some str =>
      if includes comma str || includes quote str
      then [quote] ++ doubleQuotes str ++ [quote]
      else str
  end.

Definition row (rec : Rec) (header : list string) : Str :=
  join [comma] (map (field rec) header).

Definition toCSV (records : list Rec) (columns : list string) : Str :=
  let header := columns in
  let lines :=
    join [comma] (map list_ascii_of_string header)
    :: map (fun rec => row rec header) records in
  join [newline] lines ++ [newline].

(** The value [toCSV] writes for a column: the empty string for a missing
    one. *)
Definition valueOf (rec : Rec) (key : string) : Str :=
  match rec !! key with
  | None => []
  | Some str => str
  end.

(** The keys the comparator of [execute] reads: [date_obj] as its time
    value in milliseconds (the filter before the sort has dropped the rows
    whose date is not one), and the three [parseInt(...) || 0]. *)
Record SortKey := {
  date_obj : Z;
  series_id_num : Z;
  map_number_num : Z;
  hawk_match_id_num : Z;
}.

(** The comparator of [.sort((a, b) => ...)]. *)
Definition compareMatches (a b : SortKey) : Z :=
  let ad := (date_obj a - date_obj b)%Z in
  if negb (ad =? 0)%Z then ad
  else if negb (series_id_num a =? series_id_num b)%Z
  then (series_id_num a - series_id_num b)%Z
  else if negb (map_number_num a =? map_number_num b)%Z
  then (map_number_num a - map_number_num b)%Z
  else (hawk_match_id_num a - hawk_match_id_num b)%Z.

(** What may follow a field in a row: the end of the line or a comma. *)
Definition fieldEnd (tail : Str) : Prop :=
  tail = [] \/ exists rest, tail = comma :: rest.

(** A team name with a comma and two double quotes, and a record that has
    it as [team1] and no [odds]. *)
Definition quoted_name : Str := [quote; "A"%char; quote; ","%char; "B"%char].
Definition quoted_rec : Rec := {[ "team1"%string := quoted_name ]}.

End CsvIO.

(** ** Invariants and measures used by the further properties *)

Module SweepInv.
Import Sweep.

(** The money variables of a run: the bankroll is between 0 and the peak,
    the peak is at least the starting bankroll, the recorded drawdown covers
    the current one and is at most the peak, and the largest stake is within
    the cap and the peak. *)
Definition money (s : Sim) : Prop :=
  0 <= bank s /\ bank s <= peak s /\ INITIAL_BANK <= peak s
  /\ 0 <= maxDrawdown s /\ peak s - bank s <= maxDrawdown s
  /\ maxDrawdown s <= peak s
  /\ 0 <= maxStake s /\ maxStake s <= MAX_BET /\ maxStake s <= peak s.

(** The counters of a run: wins within bets, and the Fibonacci step and its
    maximum within the number of lost bets; both steps stay 0 when the
    staking is not Fibonacci. *)
Definition counters (combo : Combo) (s : Sim) : Prop :=
  (0 <= wins s <= bets s
   /\ 0 <= fibStep s <= bets s - wins s
   /\ 0 <= maxStepReached s <= bets s - wins s
   /\ (is_fibonacci combo = false -> fibStep s = 0 /\ maxStepReached s = 0))%Z.

(** The sum of the seven skip counters. *)
Definition skipTotal (k : SkipCounters) : Z :=
  (skip_blank k + skip_malformed k + skip_delta k + skip_heroes k
   + skip_heroLookup k + skip_odds k + skip_favored k)%Z.

(** What [loadMatches] guarantees of a match it pushes. *)
Definition wellFormed (m : Match) : Prop :=
  1 < favOdds m /\ 1 < dogOdds m /\ 0 <= deltaAbs m
  /\ oddsRelation m = classifyOddsRelation (favOdds m) (dogOdds m)
  /\ deltaFavTeam m <> ""%string /\ deltaDogTeam m <> ""%string
  /\ (0 <= team1Pos m /\ 0 <= team1Neg m /\ team1Pos m + team1Neg m <= 5)%Z
  /\ (0 <= team2Pos m /\ 0 <= team2Neg m /\ team2Pos m + team2Neg m <= 5)%Z.

(** The number of elements of a list that satisfy a test. *)
Fixpoint countIf {A} (p : A -> bool) (l : list A) : Z :=
  match l with
  | [] => 0
  | x :: rest => (if p x then 1 else 0) + countIf p rest
  end%Z.

Definition isBlank (line : Line) : bool :=
  match line with BlankLine => true | _ => false end.
Definition isShort (line : Line) : bool :=
  match line with ShortRow => true | _ => false end.


End SweepInv.

Module ExecInv.
Import DeltaPctCustom.

(** What [execute] guarantees of one row of its bet ledger. *)
Definition recordOk (opts : Opts) (r : BetRecord) : Prop :=
  (exists z : Z, (0 < z)%Z /\ rec_stake r = inject_Z z)
  /\ rec_stake r <= rec_bank_before r
  /\ (forall cap, maxBetCap opts = Some cap -> rec_stake r <= cap)
  /\ 1 < rec_odds r
  /\ rec_payout r
     = (if rec_won r then inject_Z (Math_floor (rec_stake r * rec_odds r)) else 0)
  /\ rec_bank_after r
     = (if rec_won r then rec_bank_before r - rec_stake r + rec_payout r
        else rec_bank_before r - rec_stake r).

(** The ledger starts at [start], each row starts where the one before ended,
    and the last row ends at [final]. *)
Fixpoint chained (start : Q) (records : list BetRecord) (final : Q) : Prop :=
  match records with
  | [] => final = start
  | r :: rest => rec_bank_before r = start /\ chained (rec_bank_after r) rest final
  end.

(** The part of the state that holds at every point of a run. *)
Definition ledger (opts : Opts) (s : Sim) : Prop :=
  (exists z : Z, (0 <= z)%Z /\ bank s == inject_Z z)
  /\ (0 <= wins s /\ 0 <= losses s /\ bets s = wins s + losses s)%Z
  /\ bets s = Z.of_nat (length (betRecords s))
  /\ chained START_BANK (betRecords s) (bank s)
  /\ Forall (recordOk opts) (betRecords s).

(** A state from which the loop goes on: no bet so far emptied the
    bankroll. *)
Definition running (opts : Opts) (s : Sim) : Prop :=
  ledger opts s /\ 0 < bank s
  /\ Forall (fun r => 0 < rec_bank_after r) (betRecords s).

(** A state the loop may end in: only the last bet may have emptied the
    bankroll. *)
Definition ended (opts : Opts) (s : Sim) : Prop :=
  ledger opts s
  /\ Forall (fun r => 0 < rec_bank_after r) (removelast (betRecords s)).

(** The same match with its two sides exchanged. *)
Definition swapTeams (m : Match) : Match :=
  {| team1 := team2 m; team2 := team1 m;
     team1_heroes := team2_heroes m; team2_heroes := team1_heroes m;
     winner := winner m;
     team1_odds := team2_odds m; team2_odds := team1_odds m |}.

(** Both odds of the row parse to numbers above 1. *)
Definition oddsValid (m : Match) : Prop :=
  exists a b, team1_odds m = Some a /\ team2_odds m = Some b /\ 1 < a /\ 1 < b.

(** The variables the two delta-percentage simulators have in common hold
    the same values. *)
Definition agree (s : Sim) (s' : DeltaPctStrategy.Sim) : Prop :=
  bank s = DeltaPctStrategy.bank s'
  /\ peak s = DeltaPctStrategy.peak s'
  /\ maxDrawdown s = DeltaPctStrategy.maxDrawdown s'
  /\ bets s = DeltaPctStrategy.bets s'
  /\ wins s = DeltaPctStrategy.wins s'
  /\ losses s = DeltaPctStrategy.losses s'
  /\ skipped s = DeltaPctStrategy.skipped s'.

(** The options of a run without [--max-bet]: [parseArgs] starts from
    [maxBet: 10000]. *)
Definition defaultOpts (minDelta : option Q) : DeltaPctCustom.Opts :=
  {| DeltaPctCustom.maxBet := 10000; DeltaPctCustom.minDelta := minDelta |}.

End ExecInv.

Module BuildInv.
Import BuildCsMatrix.

(** [wins] of the counter [(i, j)] of [pairStats], 0 where there is none. *)
Definition pairWins (pairStats : PairStats) (i j : nat) : Z :=
  match pairStats !! i with
  | Some row =>
      match row !! j with
      | Some (Some cell) => wins cell
      | _ => 0%Z
      end
  | None => 0%Z
  end.

(** Every game of a pair is a win of one of its two heroes. *)
Definition complementary (pairStats : PairStats) : Prop :=
  forall i j,
    (0 <= pairWins pairStats i j
     /\ pairWins pairStats i j + pairWins pairStats j i = pairGames pairStats i j)%Z.

Definition sumGames (heroStats : list Counter) : Z :=
  fold_right (fun hs acc => (games hs + acc)%Z) 0%Z heroStats.
Definition sumWins (heroStats : list Counter) : Z :=
  fold_right (fun hs acc => (wins hs + acc)%Z) 0%Z heroStats.

(** The per-hero counters add up: ten hero games and five hero wins per
    processed match, and no hero has more wins than games. *)
Definition heroTotals (n : nat) (b : Build) : Prop :=
  length (heroStats b) = n
  /\ sumGames (heroStats b) = (10 * processed b)%Z
  /\ sumWins (heroStats b) = (5 * processed b)%Z
  /\ Forall (fun hs => (0 <= wins hs <= games hs)%Z) (heroStats b)
  /\ (0 <= processed b /\ 0 <= skipped b)%Z.

(** What a cell of the returned [win_rates] may hold: [null], or at least
    one game with a win rate between 0 and 100 and an advantage between -50
    and 50. *)
Definition cellInRange (cell : option Cell) : Prop :=
  match cell with
  | None => True
  | Some c =>
      (1 <= cell_games c)%Z
      /\ 0 <= cell_winRatePct c <= 100
      /\ -50 <= cell_advantage c <= 50
  end.

End BuildInv.

(** ** Theorems *)

Section FibCache.
Import Sweep SweepPure.

Lemma fib_step (n : nat) : fib (S (S n)) = (fib (S n) + fib n)%Z.
Proof. reflexivity. Qed.


Lemma cache_ok0 : cache_ok fibCache0.
Proof.
  split; [simpl; lia|].
  intros [|[|i]] Hi; simpl in *; try reflexivity; lia.
Qed.

Lemma cache_at_app_l (c : FibCache) (x : Z) (i : nat) :
  (i < length c)%nat -> cache_at (c ++ [x]) i = cache_at c i.
Proof. intros Hi. unfold cache_at. now rewrite app_nth1. Qed.

Lemma cache_at_app_last (c : FibCache) (x : Z) :
  cache_at (c ++ [x]) (length c) = x.
Proof. unfold cache_at. rewrite app_nth2, Nat.sub_diag; [reflexivity|lia]. Qed.

Lemma cache_ok_push (c : FibCache) :
  cache_ok c ->
  cache_ok (c ++ [(cache_at c (length c - 1) + cache_at c (length c - 2))%Z]).
Proof.
  intros [Hlen Hfib]. split; [rewrite length_app; simpl; lia|].
  intros i Hi. rewrite length_app in Hi. simpl in Hi.
  destruct (Nat.eq_dec i (length c)) as [->|Hne].
  - rewrite cache_at_app_last.
    rewrite !Hfib by lia.
    destruct (length c) as [|[|n]] eqn:E; try lia.
    replace (S (S n) - 1)%nat with (S n) by lia.
    replace (S (S n) - 2)%nat with n by lia.
    now rewrite fib_step.
  - rewrite cache_at_app_l by lia. apply Hfib. lia.
Qed.

Lemma fill_cache_ok (step : Z) (c : FibCache) :
  cache_ok c ->
  cache_ok (fill_cache step c) /\ (step < Z.of_nat (length (fill_cache step c)))%Z.
Proof.
  funelim (fill_cache step c); intros Hok.
  - apply H. now apply cache_ok_push.
  - split; [assumption|lia].
Qed.

Lemma getFibNumber_ok (step : Z) (c : FibCache) :
  cache_ok c ->
  fst (getFibNumber step c) = fib (Z.to_nat step) /\ cache_ok (snd (getFibNumber step c)).
Proof.
  intros Hok. unfold getFibNumber.
  destruct (Z.leb_spec step 0) as [Hle|Hgt]; simpl.
  - split; [|assumption]. replace (Z.to_nat step) with 0%nat by lia. reflexivity.
  - destruct (fill_cache_ok step c Hok) as [Hok' Hlen].
    split; [|assumption]. apply Hok'. lia.
Qed.

Lemma cache_after_ok (history : list Z) : cache_ok (cache_after history).
Proof.
  unfold cache_after. generalize cache_ok0. generalize fibCache0.
  induction history as [|step history IH]; intros c Hc; simpl; [assumption|].
  apply IH. now apply getFibNumber_ok.
Qed.

End FibCache.

(** *** The monadic simulation computes the pure one *)

Section SweepRefinement.
Import Sweep SweepPure.

Lemma computeStake_run (b : Q) (combo : Combo) (step : Z) (c : FibCache) :
  cache_ok c ->
  fst (computeStake b combo step c) = computeStake_pure b combo step
  /\ cache_ok (snd (computeStake b combo step c)).
Proof.
  intros Hc. unfold computeStake, computeStake_pure.
  destruct (Qle_bool b 0); [now split|].
  destruct (stake combo); try (now split).
  unfold bind, ret.
  destruct (getFibNumber_ok step c Hc) as [Hv Hc'].
  destruct (getFibNumber step c) as [v c']. simpl in *. subst v. now split.
Qed.

Lemma body_run (combo : Combo) (T : Q) (m : Match) (s : Sim) (c : FibCache) :
  cache_ok c ->
  fst (body combo T m s c) = body_pure combo T m s
  /\ cache_ok (snd (body combo T m s c)).
Proof.
  intros Hc. unfold body, body_pure, stakeOf.
  destruct (skipsMatch combo T m); [now split|].
  unfold bind, ret.
  destruct (computeStake_run (bank s) combo (fibStep s) c Hc) as [Hv Hc'].
  destruct (computeStake (bank s) combo (fibStep s) c) as [v c']. simpl in *.
  subst v.
  destruct (Qle_bool _ 0); now split.
Qed.

Lemma loop_run (combo : Combo) (T : Q) (ms : list Match) :
  forall (s : Sim) (c : FibCache),
  cache_ok c ->
  fst (loop combo T ms s c) = loop_pure combo T ms s
  /\ cache_ok (snd (loop combo T ms s c)).
Proof.
  induction ms as [|m ms IH]; intros s c Hc; simpl; [now split|].
  destruct (Qle_bool (bank s) 0); [now split|].
  unfold bind.
  destruct (body_run combo T m s c Hc) as [Hv Hc'].
  destruct (body combo T m s c) as [s' c']. simpl in *. subst s'.
  now apply IH.
Qed.

Lemma simulateStrategy_run (ms : list Match) (combo : Combo) (T : Q) (c : FibCache) :
  cache_ok c ->
  fst (simulateStrategy ms combo T c) = summarize combo T (loop_pure combo T ms sim0)
  /\ cache_ok (snd (simulateStrategy ms combo T c)).
Proof.
  intros Hc. unfold simulateStrategy, bind, ret.
  destruct (loop_run combo T ms sim0 c Hc) as [Hv Hc'].
  destruct (loop combo T ms sim0 c) as [s' c']. simpl in *. subst s'. now split.
Qed.

Lemma forEach_run {A B} (f : A -> M B) (g : A -> B) :
  (forall a c, cache_ok c -> fst (f a c) = g a /\ cache_ok (snd (f a c))) ->
  forall (xs : list A) (c : FibCache),
  cache_ok c ->
  fst (forEach f xs c) = map g xs /\ cache_ok (snd (forEach f xs c)).
Proof.
  intros Hf xs. induction xs as [|x xs IH]; intros c Hc; simpl; [now split|].
  unfold bind, ret.
  destruct (Hf x c Hc) as [Hv Hc'].
  destruct (f x c) as [y c']. simpl in *. subst y.
  destruct (IH c' Hc') as [Hvs Hc''].
  destruct (forEach f xs c') as [ys c'']. simpl in *. subst ys. now split.
Qed.

Lemma main_rows_run (ms : list Match) (c : FibCache) :
  cache_ok c ->
  fst (main_rows ms c) =
    concat (map (fun combo =>
                   map (fun T => summarize combo T (loop_pure combo T ms sim0))
                       DELTA_THRESHOLDS)
                buildCombos).
Proof.
  intros Hc. unfold main_rows, bind, ret.
  pose proof (forEach_run
    (fun combo => forEach (fun T => simulateStrategy ms combo T) DELTA_THRESHOLDS)
    (fun combo => map (fun T => summarize combo T (loop_pure combo T ms sim0))
                      DELTA_THRESHOLDS)) as H.
  destruct (H (fun combo c' Hc' =>
                 forEach_run _ _ (fun T c'' Hc'' => simulateStrategy_run ms combo T c'' Hc'')
                             DELTA_THRESHOLDS c' Hc')
              buildCombos c Hc) as [Hv _].
  destruct (forEach _ buildCombos c) as [rows c']. simpl in *. now subst rows.
Qed.

End SweepRefinement.


(** *** Comparisons on numbers *)

Section Comparisons.

Lemma Qle_bool_false (a b : Q) : Qle_bool a b = false -> b < a.
Proof.
  intros H. apply Qnot_le_lt. intros Hle.
  apply Qle_bool_iff in Hle. congruence.
Qed.

Lemma Qlt_bool_true (a b : Q) : Qlt_bool a b = true -> a < b.
Proof.
  unfold Qlt_bool. intros H. apply Qle_bool_false.
  now destruct (Qle_bool b a).
Qed.

Lemma Qlt_bool_false (a b : Q) : Qlt_bool a b = false -> b <= a.
Proof.
  unfold Qlt_bool. intros H. apply Qle_bool_iff.
  now destruct (Qle_bool b a).
Qed.

Lemma Qlt_bool_intro (a b : Q) : a < b -> Qlt_bool a b = true.
Proof.
  intros H. unfold Qlt_bool. destruct (Qle_bool b a) eqn:E; [|reflexivity].
  apply Qle_bool_iff in E. exfalso. apply (Qlt_not_le _ _ H E).
Qed.

Lemma Math_round_nonneg (x : Q) : 0 <= x -> (0 <= Math_round x)%Z.
Proof.
  intros H. unfold Math_round.
  change 0%Z with (Qfloor 0). apply Qfloor_resp_le. lra.
Qed.

Lemma Math_round_zero (x : Q) : x == 0 -> Math_round x = 0%Z.
Proof.
  intros H. unfold Math_round.
  rewrite (Qfloor_comp (x + (1 # 2)) (1 # 2)); [reflexivity|lra].
Qed.

End Comparisons.

(** *** Invariants of the strategy simulation *)

Section SweepInvariants.
Import Sweep SweepPure.

Variables (combo : Combo) (T : Q).

Lemma skipsMatch_odds (m : Match) : skipsMatch combo T m = false -> 1 < favOdds m.
Proof.
  unfold skipsMatch. intros H.
  apply orb_false_iff in H as [_ H]. now apply Qle_bool_false.
Qed.

Lemma skipsMatch_delta (m : Match) :
  skipsMatch combo T m = false -> T <= deltaAbs m.
Proof.
  unfold skipsMatch. intros H.
  apply orb_false_iff in H as [H _]. apply orb_false_iff in H as [H _].
  apply orb_false_iff in H as [H _]. now apply Qlt_bool_false.
Qed.

Lemma stakeOf_le_bank (s : Sim) : stakeOf combo s <= bank s.
Proof. unfold stakeOf. apply Q.le_min_r. Qed.

Lemma stakeOf_le_cap (s : Sim) : stakeOf combo s <= MAX_BET.
Proof.
  unfold stakeOf. eapply Qle_trans; [apply Q.le_min_l|apply Q.le_min_r].
Qed.

(** What [body] does, by cases. *)
Lemma body_pure_cases (m : Match) (s : Sim) :
  (body_pure combo T m s = s /\
     (skipsMatch combo T m = true \/ stakeOf combo s <= 0))
  \/ (body_pure combo T m s = placeBet combo m (stakeOf combo s) s /\
      skipsMatch combo T m = false /\ 0 < stakeOf combo s).
Proof.
  unfold body_pure.
  destruct (skipsMatch combo T m) eqn:Hs; [left; split; auto|].
  destruct (Qle_bool (stakeOf combo s) 0) eqn:Hz.
  - left. split; [reflexivity|]. right. now apply Qle_bool_iff.
  - right. repeat split. now apply Qle_bool_false.
Qed.

Lemma placeBet_bank (m : Match) (stake : Q) (s : Sim) :
  bank (placeBet combo m stake s) =
    if String.eqb (winner m) (deltaFavTeam m)
    then bank s - stake + stake * favOdds m
    else bank s - stake.
Proof. reflexivity. Qed.

Lemma placeBet_bets (m : Match) (stake : Q) (s : Sim) :
  bets (placeBet combo m stake s) = (bets s + 1)%Z.
Proof. reflexivity. Qed.

Lemma body_bank_nonneg (m : Match) (s : Sim) :
  0 <= bank s -> 0 <= bank (body_pure combo T m s).
Proof.
  intros Hb.
  destruct (body_pure_cases m s) as [[-> _]|(-> & Hs & Hpos)]; [assumption|].
  rewrite placeBet_bank.
  pose proof (stakeOf_le_bank s) as Hle.
  pose proof (skipsMatch_odds m Hs) as Hodds.
  assert (0 <= stakeOf combo s * favOdds m).
  { apply Qmult_le_0_compat; lra. }
  destruct (String.eqb _ _); lra.
Qed.

Lemma loop_bank_nonneg (ms : list Match) :
  forall s, 0 <= bank s -> 0 <= bank (loop_pure combo T ms s).
Proof.
  induction ms as [|m ms IH]; intros s Hb; simpl; [assumption|].
  destruct (Qle_bool (bank s) 0); [simpl; lra|].
  apply IH. now apply body_bank_nonneg.
Qed.

(** The loop over a corpus is the loop over a prefix, continued: the state
    after a prefix is the state the run is in at that point. *)
Lemma loop_pure_app (ms1 ms2 : list Match) :
  forall s,
  loop_pure combo T (ms1 ++ ms2) s = loop_pure combo T ms2 (loop_pure combo T ms1 s).
Proof.
  induction ms1 as [|m ms1 IH]; intros s; simpl; [reflexivity|].
  destruct (Qle_bool (bank s) 0) eqn:Hb; [|apply IH].
  destruct ms2 as [|m2 ms2]; reflexivity.
Qed.

Lemma loop_pure_busted (ms : list Match) (s : Sim) :
  bank s <= 0 ->
  loop_pure combo T ms s = s \/ loop_pure combo T ms s = setBank 0 s.
Proof.
  intros Hb. destruct ms as [|m ms]; simpl; [now left|].
  apply Qle_bool_iff in Hb. rewrite Hb. now right.
Qed.

Lemma body_fibStep_nonneg (m : Match) (s : Sim) :
  (0 <= fibStep s)%Z -> (0 <= fibStep (body_pure combo T m s))%Z.
Proof.
  intros Hf.
  destruct (body_pure_cases m s) as [[-> _]|(-> & _ & _)]; [assumption|].
  unfold placeBet. simpl.
  destruct (is_fibonacci combo); [|assumption].
  destruct (String.eqb _ _); [|lia].
  destruct (Z.leb_spec (fibStep s) 1); lia.
Qed.

Lemma loop_fibStep_nonneg (ms : list Match) :
  forall s, (0 <= fibStep s)%Z -> (0 <= fibStep (loop_pure combo T ms s))%Z.
Proof.
  induction ms as [|m ms IH]; intros s Hf; simpl; [assumption|].
  destruct (Qle_bool (bank s) 0); [assumption|].
  apply IH. now apply body_fibStep_nonneg.
Qed.

End SweepInvariants.

(** C1. At every point of a simulation run (the state after any prefix
    [played] of the corpus), for every corpus and configuration, the
    bankroll is not negative, and neither is the reported [final_bank]; once
    the bankroll is at or below 0 it is 0, the remaining matches [rest]
    change no variable of the run (at most the bankroll is rewritten to the
    literal 0), and the run reports [final_bank = 0]. *)
Theorem bankroll_never_negative (history : list Z) (combo : Sweep.Combo) (T : Q)
    (played rest : list Sweep.Match) :
  let c := SweepPure.cache_after history in
  let now := fst (Sweep.loop combo T played Sweep.sim0 c) in
  let final := fst (Sweep.loop combo T (played ++ rest) Sweep.sim0 c) in
  0 <= Sweep.bank now
  /\ (0 <= Sweep.Stats.final_bank (fst (Sweep.simulateStrategy played combo T c)))%Z
  /\ (Sweep.bank now <= 0 ->
      Sweep.bank final == 0
      /\ (final = now \/ final = Sweep.setBank 0 now)
      /\ Sweep.Stats.final_bank
           (fst (Sweep.simulateStrategy (played ++ rest) combo T c)) = 0%Z).
Proof.
  intros c now final.
  pose proof (cache_after_ok history) as Hc. fold c in Hc.
  assert (Hnow : now = SweepPure.loop_pure combo T played Sweep.sim0)
    by apply (loop_run combo T played _ c Hc).
  assert (Hfinal : final = SweepPure.loop_pure combo T (played ++ rest) Sweep.sim0)
    by apply (loop_run combo T (played ++ rest) _ c Hc).
  assert (H0 : 0 <= Sweep.bank Sweep.sim0) by (simpl; unfold Sweep.INITIAL_BANK; lra).
  assert (Hnn : 0 <= Sweep.bank now).
  { rewrite Hnow. now apply loop_bank_nonneg. }
  split; [exact Hnn|]. split.
  - destruct (simulateStrategy_run played combo T c Hc) as [-> _]. simpl.
    rewrite <- Hnow. now apply Math_round_nonneg.
  - intros Hle.
    assert (Hzero : Sweep.bank final == 0).
    { rewrite Hfinal, loop_pure_app, <- Hnow.
      destruct (loop_pure_busted combo T rest now Hle) as [-> | ->]; simpl; lra. }
    split; [exact Hzero|]. split.
    + rewrite Hfinal, loop_pure_app, <- Hnow. now apply loop_pure_busted.
    + destruct (simulateStrategy_run (played ++ rest) combo T c Hc) as [-> _]. simpl.
      rewrite <- Hfinal. now apply Math_round_zero.
Qed.

(** C5. In a Fibonacci-staking run, a placed bet (the bet counter goes up
    by one) that is won sets the step counter to [max 0 (stepBefore - 2)] and
    one that is lost sets it to [stepBefore + 1]; at every point of every run
    the step counter is not negative. *)
Theorem fibonacci_step_rule (history : list Z) (combo : Sweep.Combo) (T : Q) :
  let c := SweepPure.cache_after history in
  (forall (m : Sweep.Match) (s : Sweep.Sim),
      Sweep.is_fibonacci combo = true ->
      let s' := fst (Sweep.body combo T m s c) in
      Sweep.bets s' = (Sweep.bets s + 1)%Z ->
      Sweep.fibStep s' =
        if String.eqb (Sweep.winner m) (Sweep.deltaFavTeam m)
        then Z.max 0 (Sweep.fibStep s - 2)
        else (Sweep.fibStep s + 1)%Z)
  /\ (forall played : list Sweep.Match,
      (0 <= Sweep.fibStep (fst (Sweep.loop combo T played Sweep.sim0 c)))%Z).
Proof.
  intros c. pose proof (cache_after_ok history) as Hc. fold c in Hc. split.
  - intros m s Hfib s' Hbets. subst s'.
    destruct (body_run combo T m s c Hc) as [Hv _]. rewrite Hv in *.
    destruct (body_pure_cases combo T m s) as [[E _]|(E & _ & _)];
      rewrite E in *; [lia|].
    unfold Sweep.placeBet. simpl. rewrite Hfib.
    destruct (String.eqb _ _); [|reflexivity].
    destruct (Z.leb_spec (Sweep.fibStep s) 1); lia.
  - intros played.
    destruct (loop_run combo T played Sweep.sim0 c Hc) as [-> _].
    apply loop_fibStep_nonneg. simpl. lia.
Qed.

(** *** Bets and eligible matches *)

Section SweepBets.
Import Sweep SweepPure.

Variable combo : Combo.



Lemma eligible_nonneg (T : Q) (ms : list Match) : (0 <= eligible combo T ms)%Z.
Proof.
  induction ms as [|m ms IH]; simpl; [lia|].
  destruct (skipsMatch combo T m); lia.
Qed.

Lemma bets_le_eligible (T : Q) (ms : list Match) :
  forall s, (bets (loop_pure combo T ms s) <= bets s + eligible combo T ms)%Z.
Proof.
  induction ms as [|m ms IH]; intros s; simpl; [lia|].
  pose proof (eligible_nonneg T ms) as Hnn.
  destruct (Qle_bool (bank s) 0); simpl.
  { destruct (skipsMatch combo T m); lia. }
  specialize (IH (body_pure combo T m s)).
  destruct (body_pure_cases combo T m s) as [[E [Hs|Hz]]|(E & Hs & _)];
    rewrite E in *; try rewrite Hs.
  - lia.
  - destruct (skipsMatch combo T m); lia.
  - rewrite placeBet_bets in IH. lia.
Qed.





End SweepBets.




(** The instance of C1 on Flat100 at threshold 5: after the ten lost
    matches the bankroll is 0, and it is 0 after the eleven further ones. *)
Lemma bankroll_never_negative_witness :
  Sweep.bank (fst (Sweep.loop Examples.flat100_any 5 Examples.ten_losses
                     Sweep.sim0 Sweep.fibCache0)) <= 0
  /\ Sweep.bank (fst (Sweep.loop Examples.flat100_any 5
                        (Examples.ten_losses ++ Examples.eleven_wins)
                        Sweep.sim0 Sweep.fibCache0)) == 0.
Proof.
  assert (H : Sweep.bank (fst (Sweep.loop Examples.flat100_any 5 Examples.ten_losses
                                 Sweep.sim0 Sweep.fibCache0)) <= 0)
    by (vm_compute; discriminate).
  split; [exact H|].
  exact (proj1 (proj2 (proj2 (bankroll_never_negative [] Examples.flat100_any 5
                                Examples.ten_losses Examples.eleven_wins)) H)).
Defined.

(** The instance of C5 after four lost Fibonacci bets: the next bet is
    placed at step 4 and, won, brings the step to 2. *)
Lemma fibonacci_step_rule_witness :
  Sweep.is_fibonacci Examples.fibo1_any = true
  /\ Sweep.bets Examples.after_fifth_bet = (Sweep.bets Examples.after_four_losses + 1)%Z
  /\ Sweep.fibStep Examples.after_four_losses = 4%Z
  /\ Sweep.fibStep Examples.after_fifth_bet = Z.max 0 (4 - 2).
Proof.
  assert (H1 : Sweep.is_fibonacci Examples.fibo1_any = true) by reflexivity.
  assert (H2 : Sweep.bets Examples.after_fifth_bet
               = (Sweep.bets Examples.after_four_losses + 1)%Z)
    by (vm_compute; reflexivity).
  split; [exact H1|]. split; [exact H2|]. split; [vm_compute; reflexivity|].
  exact (proj1 (fibonacci_step_rule [] Examples.fibo1_any 0)
           (Examples.sweepMatch 10 2 true) Examples.after_four_losses H1 H2).
Defined.

(** *** Placed bets in the three simulators *)

Section PlacedBets.



End PlacedBets.




(** *** The threshold guard *)

Lemma sweep_skips_below_threshold (combo : Sweep.Combo) (T : Q) (m : Sweep.Match)
    (s : Sweep.Sim) (c : Sweep.FibCache) :
  Sweep.deltaAbs m < T -> Sweep.body combo T m s c = (s, c).
Proof.
  intros H. unfold Sweep.body, Sweep.skipsMatch.
  now rewrite (Qlt_bool_intro _ _ H).
Qed.

Lemma execute_reads_maxBet_only (opts : DeltaPctCustom.Opts)
    (ms : list DeltaPctCustom.Match) (mx : DeltaPctCustom.Matrix) :
  DeltaPctCustom.execute opts ms mx =
  DeltaPctCustom.execute
    {| DeltaPctCustom.maxBet := DeltaPctCustom.maxBet opts;
       DeltaPctCustom.minDelta := None |} ms mx.
Proof.
  unfold DeltaPctCustom.execute. f_equal.
  generalize DeltaPctCustom.sim0.
  induction ms as [|m ms IH]; intros s; simpl; [reflexivity|].
  assert (E : DeltaPctCustom.body opts mx m s =
              DeltaPctCustom.body
                {| DeltaPctCustom.maxBet := DeltaPctCustom.maxBet opts;
                   DeltaPctCustom.minDelta := None |} mx m s) by reflexivity.
  rewrite <- E. destruct (DeltaPctCustom.body opts mx m s) as [r|msg]; simpl;
    [|reflexivity].
  destruct (snd r); [reflexivity|apply IH].
Qed.

(** C8 at its failing input.  run_delta_pct_custom_cli20.js calls [execute]
    with [minDelta: 20]; on a match of delta 10 [execute] places a bet of 10,
    pays 20 and reports one bet and a bankroll of 1010, where the claim has
    the match skipped.  [execute] returns the same for every [minDelta]. *)
Theorem execute_bets_below_minDelta :
  DeltaPctCustom.minDelta DeltaPctCustom.cli20_opts = Some 20
  /\ (exists d, DeltaPctCustom.delta Examples.ten_matrix Examples.delta10_match
                = Ok (Some d) /\ Math_abs d == 10 /\ Math_abs d < 20)
  /\ (exists r, DeltaPctCustom.execute DeltaPctCustom.cli20_opts
                  [Examples.delta10_match] Examples.ten_matrix = Ok r
                /\ DeltaPctCustom.sum_bets r = 1%Z
                /\ DeltaPctCustom.final_bank r == 1010
                /\ DeltaPctCustom.max_stake r == 10
                /\ DeltaPctCustom.delta_threshold r == 0)
  /\ (forall T,
        DeltaPctCustom.execute
          {| DeltaPctCustom.maxBet := 500000; DeltaPctCustom.minDelta := T |}
          [Examples.delta10_match] Examples.ten_matrix
        = DeltaPctCustom.execute DeltaPctCustom.cli20_opts
            [Examples.delta10_match] Examples.ten_matrix).
Proof.
  split; [reflexivity|]. split; [|split].
  - eexists. split; [vm_compute; reflexivity|]. split; vm_compute; reflexivity.
  - eexists. split; [vm_compute; reflexivity|].
    repeat split; vm_compute; reflexivity.
  - intros T.
    rewrite (execute_reads_maxBet_only DeltaPctCustom.cli20_opts).
    now rewrite (execute_reads_maxBet_only
                   {| DeltaPctCustom.maxBet := 500000; DeltaPctCustom.minDelta := T |}).
Qed.

(** *** Which cell the scorers read *)

Section Scorers.
Import ScorerSpec.

Lemma computeAdvantage_fold (heroId : nat) (enemyIds : list nat) (winRates : WinRates) :
  forall total,
  fold_left (fun total enemyId =>
      match winRates !! enemyId with
      | None => total
      | Some row =>
          match row !! heroId with
          | Some (Some cell) => total + cell_advantage cell
          | _ => total
          end
      end) enemyIds total
  == total + sumQ (map (fun enemyId => cellAdvantage winRates enemyId heroId) enemyIds).
Proof.
  induction enemyIds as [|e es IH]; intros total; simpl; [lra|].
  rewrite IH. unfold cellAdvantage.
  destruct (winRates !! e) as [row|]; [|lra].
  destruct (row !! heroId) as [[cell|]|]; lra.
Qed.

(** [computeAdvantage] sums the cells of the enemies' rows at the hero's
    column. *)
Lemma computeAdvantage_transposed (heroId : nat) (enemyIds : list nat)
    (winRates : WinRates) :
  Sweep.computeAdvantage heroId enemyIds winRates
  == sumQ (map (fun enemyId => cellAdvantage winRates enemyId heroId) enemyIds).
Proof.
  unfold Sweep.computeAdvantage. rewrite computeAdvantage_fold. lra.
Qed.

(** [heroScore] sums the cells of the hero's own row at the opponents'
    columns. *)
Lemma heroScore_loop_own_row (mx : DeltaPctCustom.Matrix) (idx : nat)
    (row : list (option Cell)) (opps : list string) (oppIds : list nat) :
  DeltaPctCustom.win_rates mx !! idx = Some row ->
  Forall2 (fun opp oppIdx =>
             DeltaPctCustom.idxMap mx !! normalizeHeroName opp = Some oppIdx)
          opps oppIds ->
  forall adv, exists adv',
    DeltaPctCustom.heroScore_loop mx row opps adv = Ok adv'
    /\ adv' == adv + perHeroAdvantage (DeltaPctCustom.win_rates mx) idx oppIds.
Proof.
  intros Hrow Hall. induction Hall as [|opp oppIdx opps oppIds Hopp _ IH];
    intros adv; simpl.
  - exists adv. split; [reflexivity|]. unfold perHeroAdvantage. simpl. lra.
  - rewrite Hopp. unfold perHeroAdvantage in *. simpl.
    unfold cellAdvantage at 1. rewrite Hrow.
    destruct (row !! oppIdx) as [[cell|]|].
    + destruct (IH (adv + cell_advantage cell)) as (adv' & -> & E).
      exists adv'. split; [reflexivity|]. rewrite E. lra.
    + destruct (IH adv) as (adv' & -> & E).
      exists adv'. split; [reflexivity|]. rewrite E. lra.
    + destruct (IH adv) as (adv' & -> & E).
      exists adv'. split; [reflexivity|]. rewrite E. lra.
Qed.

End Scorers.

(** C4 at its failing input.  In a matrix where hero 0 has advantage +5
    over hero 5 (row 0, column 5) and hero 5 has -5 over hero 0, the claim
    gives hero 0 the advantage +5 against the team 5..9 and hero 5 the
    advantage -5 against the team 0..4: one positive hero in the first team,
    one negative hero in the second.  [computeAdvantage] returns -5 and +5,
    and the match [loadMatches] builds from the row has [team1Pos = 0],
    [team1Neg = 1], [team2Pos = 1], [team2Neg = 0]: the function reads
    [winRates[enemyId][heroId]], the enemy's row at the hero's column. *)
Theorem computeAdvantage_reads_enemy_row :
  (ScorerSpec.perHeroAdvantage Examples.axe_huskar 0 [5; 6; 7; 8; 9]%nat == 5
   /\ ScorerSpec.perHeroAdvantage Examples.axe_huskar 5 [0; 1; 2; 3; 4]%nat == -5)
  /\ (Sweep.computeAdvantage 0 [5; 6; 7; 8; 9]%nat Examples.axe_huskar == -5
      /\ Sweep.computeAdvantage 5 [0; 1; 2; 3; 4]%nat Examples.axe_huskar == 5)
  /\ (exists m,
        Sweep.matches (Sweep.loadMatches [Sweep.FullRow Examples.axe_row]
                         Examples.axe_heroData) = [m]
        /\ Sweep.team1Pos m = 0%Z /\ Sweep.team1Neg m = 1%Z
        /\ Sweep.team2Pos m = 1%Z /\ Sweep.team2Neg m = 0%Z)
  /\ (forall heroId enemyIds winRates,
        Sweep.computeAdvantage heroId enemyIds winRates
        == ScorerSpec.sumQ
             (map (fun enemyId => ScorerSpec.cellAdvantage winRates enemyId heroId)
                  enemyIds)).
Proof.
  split; [split; vm_compute; reflexivity|].
  split; [split; vm_compute; reflexivity|].
  split; [|exact computeAdvantage_transposed].
  eexists. split; [vm_compute; reflexivity|]. repeat split.
Qed.

(** *** Unresolved hero names *)

Section UnresolvedLoader.
Import Sweep ScorerSpec.

Variable heroData : HeroData.







End UnresolvedLoader.

Section UnresolvedScorer.
Import DeltaPctCustom ScorerSpec.

Variable mx : Matrix.




End UnresolvedScorer.




(** C6 (as amended). [buildCombos] produces 36 configurations: the twelve
    (policy, hero filter) groups Flat100/none, Pct5/none, Flat100/4+4-,
    Flat5pct/4+4-, Flat100/5+5-, Flat5pct/5+5-, Fibo1/none, Fibo1/4+4-,
    Fibo1/5+5-, Fibo5/none, Fibo5/4+4-, Fibo5/5+5-, in that order, each
    expanded over the odds conditions any, underdog, favorite in that order
    (Flat5pct stakes the constant 50, 5% of the starting bankroll).  The rows
    of [main] are ordered by configuration first, with the thresholds 5, 10,
    ..., 50, 75 ascending as the final key. *)
Theorem strategy_generation_order :
  Sweep.buildCombos =
    flat_map (fun g => Sweep.pushEach (fst g) (snd g)) GeneratorSpec.groups
  /\ Sweep.oddsConditions = [Sweep.oc_any; Sweep.oc_underdog; Sweep.oc_favorite]
  /\ length Sweep.buildCombos = 36%nat
  /\ Sweep.flatFiveAmount == 50
  /\ (forall history ms,
        map GeneratorSpec.rowKey
            (fst (Sweep.main_rows ms (SweepPure.cache_after history)))
        = flat_map (fun combo => map (GeneratorSpec.comboKey combo) Sweep.DELTA_THRESHOLDS)
                   Sweep.buildCombos)
  /\ StronglySorted Qlt Sweep.DELTA_THRESHOLDS.
Proof.
  split; [reflexivity|]. split; [reflexivity|]. split; [reflexivity|].
  split; [reflexivity|]. split.
  - intros history ms.
    rewrite (main_rows_run ms _ (cache_after_ok history)).
    generalize Sweep.DELTA_THRESHOLDS as thresholds.
    generalize Sweep.buildCombos as combos. intros combos thresholds.
    induction combos as [|combo combos IH]; simpl; [reflexivity|].
    rewrite map_app, IH. f_equal.
    rewrite map_map. reflexivity.
  - unfold Sweep.DELTA_THRESHOLDS.
    repeat (apply SSorted_cons; [|repeat (apply List.Forall_cons; [reflexivity|]);
                                  apply List.Forall_nil]).
    apply SSorted_nil.
Qed.

(** C6 as stated fails: the full cross-product has 45 configurations and
    [buildCombos] 36; Pct5 with the 4+4- filter is in the cross-product and
    not in [buildCombos]; and the order is not policy first, the fourth
    configuration being Pct5 and the seventh Flat100 again. *)
Lemma buildCombos_not_cross_product :
  length GeneratorSpec.crossProduct = 45%nat
  /\ length Sweep.buildCombos = 36%nat
  /\ Sweep.buildCombos <> GeneratorSpec.crossProduct
  /\ (exists combo, In combo GeneratorSpec.crossProduct
        /\ Sweep.strategy_group combo = "Pct5"%string
        /\ Sweep.hero_filter combo = Sweep.hf_4p4m)
  /\ (forall combo, In combo Sweep.buildCombos ->
        Sweep.strategy_group combo = "Pct5"%string ->
        Sweep.hero_filter combo = Sweep.hf_none)
  /\ map Sweep.strategy_group (firstn 9 Sweep.buildCombos)
     = ["Flat100"; "Flat100"; "Flat100"; "Pct5"; "Pct5"; "Pct5";
        "Flat100"; "Flat100"; "Flat100"]%string.
Proof.
  split; [reflexivity|]. split; [reflexivity|]. split; [|split; [|split]].
  - intros E. apply (f_equal (@length _)) in E. vm_compute in E. discriminate.
  - exists {| Sweep.strategy_group := "Pct5"; Sweep.stake := Sweep.pct_bankroll (5 # 100);
              Sweep.hero_filter := Sweep.hf_4p4m; Sweep.odds_condition := Sweep.oc_any |}.
    split; [|split; reflexivity]. vm_compute. tauto.
  - intros combo Hin Hg. vm_compute in Hin.
    repeat (destruct Hin as [<-|Hin]; [first [reflexivity | discriminate Hg]|]).
    destruct Hin.
  - reflexivity.
Qed.

(** *** The pair counters of the matrix builder *)

Section PairCounters.
Import BuildCsMatrix.

Lemma square0 (n : nat) : square n (pairStats (build0 n)).
Proof.
  split; simpl; [apply length_replicate|].
  apply Forall_replicate. apply length_replicate.
Qed.

Lemma pairGames0 (n i j : nat) : pairGames (pairStats (build0 n)) i j = 0%Z.
Proof.
  unfold pairGames. simpl.
  destruct (_ !! i) as [row|] eqn:E; [|reflexivity].
  apply lookup_replicate in E as [-> _].
  destruct (_ !! j) as [c|] eqn:E'; [|reflexivity].
  now apply lookup_replicate in E' as [-> _].
Qed.

Lemma bumpCell_shape (a b : nat) (win : bool) (ps ps' : PairStats) :
  bumpCell a b win ps = Ok ps' ->
  (a < length ps)%nat /\ length ps' = length ps.
Proof.
  unfold bumpCell. destruct (ps !! a) as [row|] eqn:Ea; [|discriminate].
  intros [= <-]. split; [now apply lookup_lt_Some in Ea|apply length_insert].
Qed.

Lemma bumpCell_games (n a b : nat) (win : bool) (ps ps' : PairStats) :
  square n ps ->
  (b < n)%nat ->
  bumpCell a b win ps = Ok ps' ->
  square n ps'
  /\ forall i j, pairGames ps' i j = (pairGames ps i j + hit i j a b)%Z.
Proof.
  intros [Hlen Hrows] Hb. unfold bumpCell.
  destruct (ps !! a) as [row|] eqn:Ea; [|discriminate].
  intros [= <-].
  assert (Hrow : length row = n).
  { rewrite Forall_lookup in Hrows. exact (Hrows a row Ea). }
  assert (Ha : (a < length ps)%nat) by now apply lookup_lt_Some in Ea.
  split.
  - split; [now rewrite length_insert|].
    apply Forall_insert; [assumption|]. now rewrite length_insert.
  - intros i j. unfold pairGames, hit.
    destruct (decide (i = a)) as [->|Hia].
    + rewrite list_lookup_insert_eq by assumption. rewrite Ea.
      destruct (decide (j = b)) as [->|Hjb].
      * rewrite list_lookup_insert_eq by lia.
        rewrite decide_True by auto. simpl.
        destruct (row !! b) as [[cell|]|]; simpl; lia.
      * rewrite list_lookup_insert_ne by auto.
        rewrite decide_False by tauto. lia.
    + rewrite list_lookup_insert_ne by auto.
      rewrite decide_False by tauto. lia.
Qed.

(** One pass of the inner loop body adds one game to [(r, d)] and one to
    [(d, r)], and to no other pair. *)
Lemma updatePair_games (n r d : nat) (radiantWin : bool) (ps ps' : PairStats) :
  square n ps ->
  updatePair r d radiantWin ps = Ok ps' ->
  square n ps'
  /\ forall i j,
       pairGames ps' i j = (pairGames ps i j + hit i j r d + hit i j d r)%Z.
Proof.
  intros Hsq. unfold updatePair.
  destruct (bumpCell r d radiantWin ps) as [ps1|] eqn:E1; simpl; [|discriminate].
  intros E2.
  destruct (bumpCell_shape _ _ _ _ _ E1) as [Hr Hlen1].
  destruct (bumpCell_shape _ _ _ _ _ E2) as [Hd _].
  destruct Hsq as [Hlen Hrows].
  assert (Hsq : square n ps) by now split.
  destruct (bumpCell_games n r d radiantWin ps ps1 Hsq ltac:(lia) E1) as [Hsq1 G1].
  destruct (bumpCell_games n d r (negb radiantWin) ps1 ps' Hsq1 ltac:(lia) E2)
    as [Hsq' G2].
  split; [assumption|]. intros i j. rewrite G2, G1. reflexivity.
Qed.

Lemma hit_swap (i j a b : nat) : hit i j a b = hit j i b a.
Proof.
  unfold hit. destruct (decide (i = a /\ j = b)), (decide (j = b /\ i = a));
    tauto || reflexivity.
Qed.







End PairCounters.

(** *** The builder returns a matrix when the hero map stays in range *)

Section BuilderTotal.
Import BuildCsMatrix.

Variables (n : nat) (heroMap : HeroMap).
Hypothesis in_range : forall k v, heroMap !! k = Some v -> (v < n)%nat.








End BuilderTotal.



(** ** Further properties of the strategy simulation *)

Section SweepMoney.
Import Sweep SweepPure SweepInv.

Variables (combo : Combo) (T : Q).

Lemma money0 : money sim0.
Proof.
  unfold money, sim0, INITIAL_BANK, MAX_BET. simpl. repeat split; lra.
Qed.

Lemma placeBet_money (m : Match) (stake : Q) (s : Sim) :
  money s -> 0 < stake -> stake <= bank s -> stake <= MAX_BET -> 1 < favOdds m ->
  money (placeBet combo m stake s).
Proof.
  unfold money. intros (Hb & Hbp & Hip & Hd & Hpd & Hdp & Hs & Hsm & Hsp) H0 Hle Hcap Ho.
  assert (Hprod : 0 <= stake * favOdds m) by (apply Qmult_le_0_compat; lra).
  assert (Hgain : stake <= stake * favOdds m).
  { assert (0 <= stake * (favOdds m - 1)) by (apply Qmult_le_0_compat; lra). lra. }
  unfold placeBet. simpl.
  set (bank2 := if String.eqb (winner m) (deltaFavTeam m)
                then bank s - stake + stake * favOdds m else bank s - stake).
  assert (Hb2 : 0 <= bank2) by (subst bank2; destruct (String.eqb _ _); lra).
  destruct (Qlt_bool (peak s) bank2) eqn:Ep;
    [apply Qlt_bool_true in Ep | apply Qlt_bool_false in Ep];
  destruct (Qlt_bool (maxStake s) stake) eqn:Es;
    [apply Qlt_bool_true in Es | apply Qlt_bool_false in Es
    |apply Qlt_bool_true in Es | apply Qlt_bool_false in Es];
  try (destruct (Qlt_bool (maxDrawdown s) (peak s - bank2)) eqn:Ed;
       [apply Qlt_bool_true in Ed | apply Qlt_bool_false in Ed]);
  repeat split; lra.
Qed.

Lemma body_money (m : Match) (s : Sim) : money s -> money (body_pure combo T m s).
Proof.
  intros Hm.
  destruct (body_pure_cases combo T m s) as [[-> _]|(-> & Hs & Hpos)]; [assumption|].
  apply placeBet_money; auto.
  - apply stakeOf_le_bank.
  - apply stakeOf_le_cap.
  - now apply (skipsMatch_odds combo T).
Qed.

Lemma setBank_money (s : Sim) : money s -> bank s <= 0 -> money (setBank 0 s).
Proof.
  unfold money. simpl. intros (Hb & Hbp & Hip & Hd & Hpd & Hdp & Hs & Hsm & Hsp) Hle.
  repeat split; lra.
Qed.

Lemma loop_money (ms : list Match) :
  forall s, money s -> money (loop_pure combo T ms s).
Proof.
  induction ms as [|m ms IH]; intros s Hm; simpl; [assumption|].
  destruct (Qle_bool (bank s) 0) eqn:E.
  - apply setBank_money; [assumption|now apply Qle_bool_iff].
  - apply IH. now apply body_money.
Qed.

End SweepMoney.

Section SweepCounters.
Import Sweep SweepPure SweepInv.

Variables (combo : Combo) (T : Q).

Lemma counters0 : counters combo sim0.
Proof. unfold counters. simpl. repeat split; lia. Qed.

Lemma placeBet_counters (m : Match) (stake : Q) (s : Sim) :
  counters combo s -> counters combo (placeBet combo m stake s).
Proof.
  unfold counters, placeBet. simpl.
  intros (Hw & Hf & Hx & Hn).
  destruct (is_fibonacci combo) eqn:Efib; simpl.
  - destruct (String.eqb _ _);
      destruct (Z.ltb_spec (maxStepReached s) (fibStep s));
      try destruct (Z.leb_spec (fibStep s) 1);
      repeat split; try lia; discriminate.
  - destruct (Hn eq_refl) as [Hf0 Hx0].
    destruct (String.eqb _ _); repeat split; try lia.
Qed.

Lemma loop_counters (ms : list Match) :
  forall s, counters combo s -> counters combo (loop_pure combo T ms s).
Proof.
  induction ms as [|m ms IH]; intros s Hc; simpl; [assumption|].
  destruct (Qle_bool (bank s) 0); [exact Hc|].
  apply IH.
  destruct (body_pure_cases combo T m s) as [[-> _]|(-> & _ & _)]; [assumption|].
  now apply placeBet_counters.
Qed.

Lemma bets_monotone (ms : list Match) :
  forall s, (bets s <= bets (loop_pure combo T ms s))%Z.
Proof.
  induction ms as [|m ms IH]; intros s; simpl; [lia|].
  destruct (Qle_bool (bank s) 0); [simpl; lia|].
  specialize (IH (body_pure combo T m s)).
  destruct (body_pure_cases combo T m s) as [[E _]|(E & _ & _)]; rewrite E in *.
  - exact IH.
  - rewrite placeBet_bets in IH. lia.
Qed.

Lemma eligible_le_length (ms : list Match) :
  (eligible combo T ms <= Z.of_nat (length ms))%Z.
Proof.
  induction ms as [|m ms IH]; simpl length; simpl eligible; [lia|].
  destruct (skipsMatch combo T m); lia.
Qed.

(** A run that places no bet ends in the state it started from. *)
Lemma no_bet_no_change (ms : list Match) :
  forall s,
  0 < bank s ->
  bets (loop_pure combo T ms s) = bets s ->
  loop_pure combo T ms s = s.
Proof.
  induction ms as [|m ms IH]; intros s Hb Hbets; simpl in *; [reflexivity|].
  destruct (Qle_bool (bank s) 0) eqn:E.
  { apply Qle_bool_iff in E. lra. }
  pose proof (bets_monotone ms (body_pure combo T m s)) as Hmono.
  destruct (body_pure_cases combo T m s) as [[E' _]|(E' & _ & _)]; rewrite E' in *.
  - now apply IH.
  - rewrite placeBet_bets in Hmono. lia.
Qed.

End SweepCounters.

Section MemoTable.
Import Sweep SweepPure SweepInv.









End MemoTable.

(** X1. At every point of every strategy run the bankroll is at most the
    peak, the peak is at least the starting 1000, the recorded maximum
    drawdown is between the current drawdown (peak minus bankroll) and the
    peak, and the reported [max_drawdown] is not negative. *)
Theorem sweep_drawdown_tracks_peak (history : list Z) (combo : Sweep.Combo) (T : Q)
    (played : list Sweep.Match) :
  let c := SweepPure.cache_after history in
  let s := fst (Sweep.loop combo T played Sweep.sim0 c) in
  Sweep.bank s <= Sweep.peak s
  /\ 1000 <= Sweep.peak s
  /\ Sweep.peak s - Sweep.bank s <= Sweep.maxDrawdown s
  /\ 0 <= Sweep.maxDrawdown s <= Sweep.peak s
  /\ (0 <= Sweep.Stats.max_drawdown (fst (Sweep.simulateStrategy played combo T c)))%Z.
Proof.
  intros c s.
  pose proof (cache_after_ok history) as Hc. fold c in Hc.
  assert (Hs : s = SweepPure.loop_pure combo T played Sweep.sim0)
    by apply (loop_run combo T played _ c Hc).
  pose proof (loop_money combo T played _ money0) as Hm. rewrite <- Hs in Hm.
  destruct Hm as (Hb & Hbp & Hip & Hd & Hpd & Hdp & _).
  repeat split; try assumption.
  destruct (simulateStrategy_run played combo T c Hc) as [-> _]. simpl.
  rewrite <- Hs. now apply Math_round_nonneg.
Qed.

(** X2. At every point of every strategy run the largest stake placed so
    far is between 0 and the cap [MAX_BET] = 10000 and is at most the peak
    bankroll; the reported [max_stake] is between 0 and 10000. *)
Theorem sweep_stake_within_cap (history : list Z) (combo : Sweep.Combo) (T : Q)
    (played : list Sweep.Match) :
  let c := SweepPure.cache_after history in
  let s := fst (Sweep.loop combo T played Sweep.sim0 c) in
  0 <= Sweep.maxStake s <= Sweep.MAX_BET
  /\ Sweep.maxStake s <= Sweep.peak s
  /\ (0 <= Sweep.Stats.max_stake (fst (Sweep.simulateStrategy played combo T c))
      <= 10000)%Z.
Proof.
  intros c s.
  pose proof (cache_after_ok history) as Hc. fold c in Hc.
  assert (Hs : s = SweepPure.loop_pure combo T played Sweep.sim0)
    by apply (loop_run combo T played _ c Hc).
  pose proof (loop_money combo T played _ money0) as Hm. rewrite <- Hs in Hm.
  destruct Hm as (_ & _ & _ & _ & _ & _ & H0 & Hcap & Hpk).
  repeat split; try assumption;
    destruct (simulateStrategy_run played combo T c Hc) as [-> _]; simpl;
    rewrite <- Hs.
  - now apply Math_round_nonneg.
  - unfold Math_round. change 10000%Z with (Qfloor (10000 + (1 # 2))).
    apply Qfloor_resp_le. unfold Sweep.MAX_BET in Hcap. lra.
Qed.

Lemma win_pct_bounds (w b : Z) :
  (0 <= w <= b)%Z -> (0 < b)%Z ->
  (0 <= Math_round (inject_Z w / inject_Z b * 100) <= 100)%Z.
Proof.
  intros Hw Hb.
  assert (Hb' : 0 < inject_Z b) by (change 0 with (inject_Z 0); now rewrite <- Zlt_Qlt).
  assert (H0 : 0 <= inject_Z w / inject_Z b).
  { apply Qle_shift_div_l; [assumption|].
    rewrite Qmult_0_l. change 0 with (inject_Z 0). rewrite <- Zle_Qle. lia. }
  assert (H1 : inject_Z w / inject_Z b <= 1).
  { apply Qle_shift_div_r; [assumption|].
    rewrite Qmult_1_l. rewrite <- Zle_Qle. lia. }
  set (x := inject_Z w / inject_Z b) in *. clearbody x. clear Hw Hb Hb'.
  split.
  - apply Math_round_nonneg. lra.
  - unfold Math_round.
    assert (H : (Qfloor (x * 100 + (1 # 2)) <= Qfloor (100 + (1 # 2)))%Z)
      by (apply Qfloor_resp_le; lra).
    exact H.
Qed.

(** X3. In every strategy run the wins are at most the bets and the bets
    at most the number of matches played; the reported [win_pct] is between
    0 and 100; and a run that places no bet reports the starting bankroll
    1000 with no drawdown and no stake. *)
Theorem sweep_counters_bounds (history : list Z) (combo : Sweep.Combo) (T : Q)
    (played : list Sweep.Match) :
  let c := SweepPure.cache_after history in
  let r := fst (Sweep.simulateStrategy played combo T c) in
  (0 <= Sweep.Stats.wins r <= Sweep.Stats.bets r)%Z
  /\ (Sweep.Stats.bets r <= Z.of_nat (length played))%Z
  /\ (0 <= Sweep.Stats.win_pct r <= 100)%Z
  /\ (Sweep.Stats.bets r = 0%Z ->
      Sweep.Stats.wins r = 0%Z /\ Sweep.Stats.win_pct r = 0%Z
      /\ Sweep.Stats.final_bank r = 1000%Z /\ Sweep.Stats.max_drawdown r = 0%Z
      /\ Sweep.Stats.max_stake r = 0%Z /\ Sweep.Stats.max_step r = 0%Z).
Proof.
  intros c r.
  pose proof (cache_after_ok history) as Hc. fold c in Hc.
  assert (Hr : r = Sweep.summarize combo T
                     (SweepPure.loop_pure combo T played Sweep.sim0))
    by apply (simulateStrategy_run played combo T c Hc).
  set (s := SweepPure.loop_pure combo T played Sweep.sim0) in Hr.
  pose proof (loop_counters combo T played _ (counters0 combo)) as (Hw & _).
  fold s in Hw.
  pose proof (bets_le_eligible combo T played Sweep.sim0) as Hel. fold s in Hel.
  pose proof (eligible_le_length combo T played) as Hlen.
  simpl in Hel.
  rewrite Hr. simpl.
  split; [exact Hw|]. split; [lia|]. split.
  - destruct (Z.eqb_spec (Sweep.bets s) 0); [lia|].
    apply win_pct_bounds; lia.
  - intros H0.
    assert (Es : s = Sweep.sim0).
    { apply no_bet_no_change; [reflexivity|exact H0]. }
    rewrite Es. simpl. repeat split; try reflexivity.
    now destruct (Sweep.is_fibonacci combo).
Qed.

(** The instance of X3 on a corpus whose matches are all below the
    threshold: no bet, the starting bankroll reported. *)
Lemma sweep_counters_bounds_witness :
  Sweep.Stats.bets (fst (Sweep.simulateStrategy Examples.ten_losses
                           Examples.flat100_any 10 Sweep.fibCache0)) = 0%Z
  /\ Sweep.Stats.final_bank (fst (Sweep.simulateStrategy Examples.ten_losses
                                    Examples.flat100_any 10 Sweep.fibCache0)) = 1000%Z.
Proof.
  assert (H : Sweep.Stats.bets (fst (Sweep.simulateStrategy Examples.ten_losses
                Examples.flat100_any 10 Sweep.fibCache0)) = 0%Z) by reflexivity.
  split; [exact H|].
  exact (proj1 (proj2 (proj2 (proj2 (proj2 (proj2
           (sweep_counters_bounds [] Examples.flat100_any 10 Examples.ten_losses)))
           H)))).
Defined.

(** X4. In every strategy run the Fibonacci step and the largest step
    reached are between 0 and the number of lost bets, and so is the
    reported [max_step]; with flat or percentage staking the step stays 0
    and [max_step] is 0. *)
Theorem sweep_fibonacci_step_bounds (history : list Z) (combo : Sweep.Combo) (T : Q)
    (played : list Sweep.Match) :
  let c := SweepPure.cache_after history in
  let s := fst (Sweep.loop combo T played Sweep.sim0 c) in
  let r := fst (Sweep.simulateStrategy played combo T c) in
  (0 <= Sweep.fibStep s <= Sweep.bets s - Sweep.wins s)%Z
  /\ (0 <= Sweep.maxStepReached s <= Sweep.bets s - Sweep.wins s)%Z
  /\ (0 <= Sweep.Stats.max_step r <= Sweep.Stats.bets r - Sweep.Stats.wins r)%Z
  /\ (Sweep.is_fibonacci combo = false ->
      Sweep.fibStep s = 0%Z /\ Sweep.Stats.max_step r = 0%Z).
Proof.
  intros c s r.
  pose proof (cache_after_ok history) as Hc. fold c in Hc.
  assert (Hs : s = SweepPure.loop_pure combo T played Sweep.sim0)
    by apply (loop_run combo T played _ c Hc).
  assert (Hr : r = Sweep.summarize combo T s).
  { rewrite Hs. apply (simulateStrategy_run played combo T c Hc). }
  pose proof (loop_counters combo T played _ (counters0 combo)) as (Hw & Hf & Hx & Hn).
  rewrite <- Hs in *. rewrite Hr. simpl.
  split; [exact Hf|]. split; [exact Hx|]. split.
  - destruct (Sweep.is_fibonacci combo); lia.
  - intros E. rewrite E. split; [apply (Hn E)|reflexivity].
Qed.

(** The instance of X4 on the Flat100 run of the bust corpus. *)
Lemma sweep_fibonacci_step_bounds_witness :
  Sweep.is_fibonacci Examples.flat100_any = false
  /\ Sweep.fibStep (fst (Sweep.loop Examples.flat100_any 5 Examples.bust_corpus
                           Sweep.sim0 Sweep.fibCache0)) = 0%Z.
Proof.
  split; [reflexivity|].
  exact (proj1 (proj2 (proj2 (proj2
           (sweep_fibonacci_step_bounds [] Examples.flat100_any 5
              Examples.bust_corpus))) eq_refl)).
Defined.




(** ** Further properties of the loader *)

Section LoaderAccounting.
Import Sweep SweepInv.

Variable heroData : HeroData.

Lemma skipTotal_bump (r : SkipReason) (k : SkipCounters) :
  skipTotal (bump r k) = (skipTotal k + 1)%Z.
Proof. unfold skipTotal. destruct r; simpl; lia. Qed.

Lemma heroNamesToIds_length (names : list string) :
  forall ids0 missing ids,
  fst (heroNamesToIds_loop ids0 names heroData missing) = Some ids ->
  length ids = (length ids0 + length names)%nat.
Proof.
  induction names as [|n names IH]; intros ids0 missing ids; simpl.
  - intros [= <-]. lia.
  - destruct (heroIndex heroData !! normalizeHeroName n); [|discriminate].
    intros H. rewrite (IH _ _ _ H), length_app. simpl. lia.
Qed.

Lemma computeTeamCounts_bounds (heroIds enemyIds : list nat) :
  let counts := computeTeamCounts heroIds enemyIds heroData in
  (0 <= fst counts /\ 0 <= snd counts
   /\ fst counts + snd counts <= Z.of_nat (length heroIds))%Z.
Proof.
  unfold computeTeamCounts.
  assert (H : forall (acc : Z * Z),
    (0 <= fst acc /\ 0 <= snd acc)%Z ->
    let counts := fold_left (fun '(pos, neg) heroId =>
        let adv := computeAdvantage heroId enemyIds (winRates heroData) in
        if Qlt_bool 0 adv then ((pos + 1)%Z, neg)
        else if Qlt_bool adv 0 then (pos, (neg + 1)%Z)
        else (pos, neg)) heroIds acc in
    (0 <= fst counts /\ 0 <= snd counts
     /\ fst counts + snd counts <= fst acc + snd acc + Z.of_nat (length heroIds))%Z).
  { induction heroIds as [|h hs IH]; intros [pos neg] Hacc; simpl in *; [lia|].
    destruct (Qlt_bool 0 _); [|destruct (Qlt_bool _ 0)];
      match goal with |- context [fold_left _ hs ?a] =>
        specialize (IH a); simpl in IH; lia end. }
  specialize (H (0%Z, 0%Z)). simpl in H. simpl. lia.
Qed.

(** What one line does to the loader: a match more, or a skip counted. *)
Lemma loadLine_step (st : Loader) (line : Line) :
  (exists m, matches (loadLine heroData st line) = matches st ++ [m]
             /\ wellFormed m
             /\ skipCounters (loadLine heroData st line) = skipCounters st
             /\ isBlank line = false /\ isShort line = false)
  \/ (matches (loadLine heroData st line) = matches st
      /\ exists r, skipCounters (loadLine heroData st line) = bump r (skipCounters st)
                   /\ (r = blank <-> isBlank line = true)
                   /\ (r = malformed <-> isShort line = true)).
Proof.
  unfold loadLine.
  destruct line as [| |row].
  { right. split; [reflexivity|]. exists blank. repeat split; auto; discriminate. }
  { right. split; [reflexivity|]. exists malformed. repeat split; auto; discriminate. }
  assert (Hskip : forall r missing, r <> blank -> r <> malformed ->
    (exists m, matches (skipLine r missing st) = matches st ++ [m]
               /\ wellFormed m
               /\ skipCounters (skipLine r missing st) = skipCounters st
               /\ isBlank (FullRow row) = false /\ isShort (FullRow row) = false)
    \/ (matches (skipLine r missing st) = matches st
        /\ exists r', skipCounters (skipLine r missing st) = bump r' (skipCounters st)
                      /\ (r' = blank <-> isBlank (FullRow row) = true)
                      /\ (r' = malformed <-> isShort (FullRow row) = true))).
  { intros r missing Hb Hm. right. split; [reflexivity|]. exists r.
    split; [reflexivity|]. split; split; simpl; intros; congruence. }
  destruct (row_delta row) as [deltaRaw|]; [|apply Hskip; discriminate].
  destruct (negb _) eqn:Elen; [apply Hskip; discriminate|].
  apply negb_false_iff, andb_true_iff in Elen as [El1 El2].
  apply Nat.eqb_eq in El1, El2.
  unfold heroNamesToIds.
  destruct (heroNamesToIds_loop [] (row_team1_heroes row) heroData (missingHeroes st))
    as [team1Ids missing1] eqn:E1.
  destruct (heroNamesToIds_loop [] (row_team2_heroes row) heroData missing1)
    as [team2Ids missing2] eqn:E2.
  destruct team1Ids as [ids1|]; [|destruct team2Ids; apply Hskip; discriminate].
  destruct team2Ids as [ids2|]; [|apply Hskip; discriminate].
  assert (Hl1 : length ids1 = 5%nat).
  { rewrite (heroNamesToIds_length (row_team1_heroes row) [] (missingHeroes st) ids1);
      [simpl; lia|now rewrite E1]. }
  assert (Hl2 : length ids2 = 5%nat).
  { rewrite (heroNamesToIds_length (row_team2_heroes row) [] missing1 ids2);
      [simpl; lia|now rewrite E2]. }
  destruct (isEmpty (row_deltaFavTeam row)) eqn:Ef; [apply Hskip; discriminate|].
  destruct (isEmpty (row_team1 row)) eqn:Et1; [apply Hskip; discriminate|].
  destruct (isEmpty (row_team2 row)) eqn:Et2; [apply Hskip; discriminate|].
  simpl.
  assert (Hne : forall x, isEmpty x = false -> x <> ""%string).
  { intros x Hx ->. discriminate Hx. }
  destruct (if String.eqb (row_team1 row) (row_deltaFavTeam row) then Some true
            else if String.eqb (row_team2 row) (row_deltaFavTeam row) then Some false
            else None) as [fav|]; [|apply Hskip; discriminate].
  destruct (row_team1_odds row) as [o1|]; [|apply Hskip; discriminate].
  destruct (row_team2_odds row) as [o2|]; [|apply Hskip; discriminate].
  destruct (Qle_bool o1 1) eqn:Eo1; [apply Hskip; discriminate|].
  destruct (Qle_bool o2 1) eqn:Eo2; [apply Hskip; discriminate|].
  simpl. apply Qle_bool_false in Eo1, Eo2.
  left. eexists. split; [reflexivity|]. split; [|auto].
  pose proof (computeTeamCounts_bounds ids1 ids2) as Hc1.
  pose proof (computeTeamCounts_bounds ids2 ids1) as Hc2.
  simpl in Hc1, Hc2. rewrite Hl1 in Hc1. rewrite Hl2 in Hc2.
  unfold wellFormed. simpl.
  split; [destruct fav; assumption|].
  split; [destruct fav; assumption|].
  split; [apply Qabs_nonneg|].
  split; [reflexivity|].
  split; [now apply Hne|].
  split; [destruct fav; now apply Hne|].
  split; lia.
Qed.

Lemma loadLines_account (lines : list Line) :
  forall st,
  let st' := fold_left (loadLine heroData) lines st in
  (Z.of_nat (length (matches st')) + skipTotal (skipCounters st')
   = Z.of_nat (length (matches st)) + skipTotal (skipCounters st)
     + Z.of_nat (length lines))%Z
  /\ (skip_blank (skipCounters st')
      = skip_blank (skipCounters st) + countIf isBlank lines)%Z
  /\ (skip_malformed (skipCounters st')
      = skip_malformed (skipCounters st) + countIf isShort lines)%Z
  /\ (Forall wellFormed (matches st) -> Forall wellFormed (matches st')).
Proof.
  induction lines as [|line lines IH]; intros st; simpl.
  { repeat split; auto; lia. }
  destruct (IH (loadLine heroData st line)) as (IHa & IHb & IHm & IHw).
  destruct (loadLine_step st line) as [(m & Em & Hwf & Ek & Hb & Hs)|(Em & r & Ek & Hb & Hs)].
  - rewrite Em, Ek in *. rewrite length_app in IHa. simpl in IHa.
    rewrite Hb, Hs. repeat split; try lia.
    intros Hall. apply IHw. apply Forall_app. split; [assumption|].
    now apply Forall_singleton.
  - rewrite Em, Ek in *. rewrite skipTotal_bump in IHa.
    assert (Eb : skip_blank (bump r (skipCounters st))
                 = (skip_blank (skipCounters st)
                    + if isBlank line then 1 else 0)%Z).
    { destruct (isBlank line) eqn:E.
      - destruct Hb as [_ Hb]. rewrite (Hb eq_refl). simpl. lia.
      - destruct r; simpl; try lia. destruct Hb as [Hb _].
        specialize (Hb eq_refl). discriminate. }
    assert (Es : skip_malformed (bump r (skipCounters st))
                 = (skip_malformed (skipCounters st)
                    + if isShort line then 1 else 0)%Z).
    { destruct (isShort line) eqn:E.
      - destruct Hs as [_ Hs]. rewrite (Hs eq_refl). simpl. lia.
      - destruct r; simpl; try lia. destruct Hs as [Hs _].
        specialize (Hs eq_refl). discriminate. }
    repeat split; try lia. exact IHw.
Qed.

End LoaderAccounting.

(** X7. [loadMatches] accounts for every line of the file: the number of
    matches loaded plus the sum of the seven skip counters is the number of
    lines; the [blank] counter is the number of blank lines and the
    [malformed] counter the number of rows with fewer than 14 columns. *)
Theorem loadMatches_accounts_for_every_line (lines : list Sweep.Line)
    (heroData : Sweep.HeroData) :
  let st := Sweep.loadMatches lines heroData in
  (Z.of_nat (length (Sweep.matches st)) + SweepInv.skipTotal (Sweep.skipCounters st)
   = Z.of_nat (length lines))%Z
  /\ Sweep.skip_blank (Sweep.skipCounters st) = SweepInv.countIf SweepInv.isBlank lines
  /\ Sweep.skip_malformed (Sweep.skipCounters st)
     = SweepInv.countIf SweepInv.isShort lines.
Proof.
  intros st. subst st. unfold Sweep.loadMatches.
  destruct (loadLines_account heroData lines Sweep.loader0) as (Ha & Hb & Hs & _).
  change (SweepInv.skipTotal (Sweep.skipCounters Sweep.loader0)) with 0%Z in Ha.
  change (length (Sweep.matches Sweep.loader0)) with 0%nat in Ha.
  change (Sweep.skip_blank (Sweep.skipCounters Sweep.loader0)) with 0%Z in Hb.
  change (Sweep.skip_malformed (Sweep.skipCounters Sweep.loader0)) with 0%Z in Hs.
  repeat split; lia.
Qed.

(** X8. Every match [loadMatches] hands to the simulation has both odds
    above 1, a non-negative absolute delta, the odds relation computed from
    its own odds, non-empty favoured and opposing team names, and hero counts
    between 0 and 5 with positives plus negatives at most 5 for each team;
    hence the odds guard of [simulateStrategy] never skips a loaded match. *)
Theorem loadMatches_rows_well_formed (lines : list Sweep.Line)
    (heroData : Sweep.HeroData) :
  Forall SweepInv.wellFormed (Sweep.matches (Sweep.loadMatches lines heroData))
  /\ Forall (fun m => Qle_bool (Sweep.favOdds m) 1 = false)
            (Sweep.matches (Sweep.loadMatches lines heroData)).
Proof.
  assert (H : Forall SweepInv.wellFormed
                (Sweep.matches (Sweep.loadMatches lines heroData))).
  { unfold Sweep.loadMatches.
    destruct (loadLines_account heroData lines Sweep.loader0) as (_ & _ & _ & Hw).
    apply Hw. simpl. constructor. }
  split; [exact H|].
  eapply Forall_impl; [exact H|].
  intros m (Hf & _). simpl.
  destruct (Qle_bool (Sweep.favOdds m) 1) eqn:E; [|reflexivity].
  apply Qle_bool_iff in E. lra.
Qed.

Section HeroIndex.

Lemma indexHeroes_other (key : string) (heroes : list string) :
  (forall name, In name heroes -> normalizeHeroName name <> key) ->
  forall idx (acc : gmap string nat),
  indexHeroes idx heroes acc !! key = acc !! key.
Proof.
  induction heroes as [|h heroes IH]; intros Hno idx acc; simpl; [reflexivity|].
  rewrite IH by (intros name Hin; apply Hno; now right).
  apply lookup_insert_ne. apply Hno. now left.
Qed.

Lemma indexHeroes_sound (heroes : list string) :
  forall idx (acc : gmap string nat) key id,
  indexHeroes idx heroes acc !! key = Some id ->
  acc !! key = Some id
  \/ exists i name, heroes !! i = Some name /\ normalizeHeroName name = key
                    /\ id = (idx + i)%nat.
Proof.
  induction heroes as [|h heroes IH]; intros idx acc key id; simpl; [now left|].
  intros H. destruct (IH _ _ _ _ H) as [Hacc|(i & name & Hi & Hk & ->)].
  - destruct (decide (normalizeHeroName h = key)) as [E|E].
    + rewrite E, lookup_insert_eq in Hacc. injection Hacc as <-.
      right. exists 0%nat, h. repeat split; auto; lia.
    + rewrite lookup_insert_ne in Hacc by assumption. now left.
  - right. exists (S i), name. repeat split; auto; lia.
Qed.

Lemma indexHeroes_last (heroes : list string) :
  forall idx (acc : gmap string nat) i name,
  heroes !! i = Some name ->
  (forall j name', (i < j)%nat -> heroes !! j = Some name' ->
                   normalizeHeroName name' <> normalizeHeroName name) ->
  indexHeroes idx heroes acc !! normalizeHeroName name = Some (idx + i)%nat.
Proof.
  induction heroes as [|h heroes IH]; intros idx acc i name Hi Hlast; [discriminate|].
  destruct i as [|i]; simpl in *.
  - injection Hi as ->.
    rewrite indexHeroes_other.
    + rewrite lookup_insert_eq. f_equal. lia.
    + intros name' Hin. apply list_elem_of_In, list_elem_of_lookup in Hin as [j Hj].
      apply (Hlast (S j) name'); [lia|exact Hj].
  - rewrite (IH (S idx) _ i name Hi).
    + f_equal. lia.
    + intros j name' Hlt Hj. apply (Hlast (S j) name'); [lia|exact Hj].
Qed.

Lemma last_with_key (key : string) (heroes : list string) :
  (forall name, In name heroes -> normalizeHeroName name <> key)
  \/ (exists i name, heroes !! i = Some name /\ normalizeHeroName name = key
        /\ forall j name', (i < j)%nat -> heroes !! j = Some name' ->
                           normalizeHeroName name' <> key).
Proof.
  induction heroes as [|h heroes IH]; [left; intros name []|].
  destruct IH as [Hno|(i & name & Hi & Hk & Hl)].
  - destruct (decide (normalizeHeroName h = key)) as [E|E].
    + right. exists 0%nat, h. repeat split; auto.
      intros [|j] name' Hlt Hj; [lia|]. simpl in Hj.
      apply Hno. apply list_elem_of_In, list_elem_of_lookup. eauto.
    + left. intros name [->|Hin]; auto.
  - right. exists (S i), name. repeat split; auto.
    intros [|j] name' Hlt Hj; [lia|]. apply (Hl j name'); [lia|exact Hj].
Qed.

End HeroIndex.

(** X9. The hero index built from the hero list resolves every listed
    hero; an id it returns is a position of the list whose hero normalizes
    to the key looked up; and when several heroes normalize to the same key
    the last one of the list is the one the key resolves to. *)
Theorem hero_index_resolves_listed_heroes (heroes : list string) :
  let index := indexHeroes 0 heroes ∅ in
  (forall name, In name heroes -> is_Some (index !! normalizeHeroName name))
  /\ (forall key id, index !! key = Some id ->
        exists name, heroes !! id = Some name /\ normalizeHeroName name = key)
  /\ (forall i name, heroes !! i = Some name ->
        (forall j name', (i < j)%nat -> heroes !! j = Some name' ->
                         normalizeHeroName name' <> normalizeHeroName name) ->
        index !! normalizeHeroName name = Some i).
Proof.
  intros index. subst index.
  assert (Hlast : forall i name, heroes !! i = Some name ->
        (forall j name', (i < j)%nat -> heroes !! j = Some name' ->
                         normalizeHeroName name' <> normalizeHeroName name) ->
        indexHeroes 0 heroes ∅ !! normalizeHeroName name = Some i).
  { intros i name Hi Hl. now rewrite (indexHeroes_last heroes 0 ∅ i name Hi Hl). }
  split; [|split; [|exact Hlast]].
  - intros name Hin.
    destruct (last_with_key (normalizeHeroName name) heroes)
      as [Hno|(i & n & Hi & Hk & Hl)].
    + now destruct (Hno name Hin).
    + exists i. rewrite <- Hk. apply (Hlast i n Hi).
      intros j name' Hlt Hj. rewrite Hk. now apply (Hl j name').
  - intros key id H.
    destruct (indexHeroes_sound heroes 0 ∅ key id H) as [Hacc|(i & name & Hi & Hk & ->)].
    + rewrite lookup_empty in Hacc. discriminate.
    + exists name. now split.
Qed.

Section HeroNames.
Import Sweep.

Lemma heroNamesToIds_loop_spec (heroData : HeroData) (names : list string) :
  forall ids0 missing,
  match heroNamesToIds_loop ids0 names heroData missing with
  | (Some ids, missing') =>
      missing' = missing
      /\ exists new, ids = ids0 ++ new
           /\ Forall2 (fun name id =>
                         heroIndex heroData !! normalizeHeroName name = Some id)
                      names new
  | (None, missing') =>
      exists before name after,
        names = before ++ name :: after
        /\ Forall (fun n => is_Some (heroIndex heroData !! normalizeHeroName n)) before
        /\ heroIndex heroData !! normalizeHeroName name = None
        /\ missing' = <[normalizeHeroName name := name]> missing
  end.
Proof.
  induction names as [|n names IH]; intros ids0 missing; simpl.
  - split; [reflexivity|]. exists []. split; [now rewrite app_nil_r|constructor].
  - destruct (heroIndex heroData !! normalizeHeroName n) as [id|] eqn:E.
    + specialize (IH (ids0 ++ [id]) missing).
      destruct (heroNamesToIds_loop (ids0 ++ [id]) names heroData missing)
        as [[ids|] missing'].
      * destruct IH as (-> & new & -> & Hall). split; [reflexivity|].
        exists (id :: new). split; [now rewrite <- app_assoc|].
        now constructor.
      * destruct IH as (before & name & after & -> & Hb & Hn & ->).
        exists (n :: before), name, after.
        split; [reflexivity|]. split; [|split; auto].
        constructor; [rewrite E; eauto|assumption].
    + exists [], n, names. repeat split; auto.
Qed.

Lemma toLowerCase_idem (c : ascii) : toLowerCase (toLowerCase c) = toLowerCase c.
Proof.
  destruct c as [[] [] [] [] [] [] [] []]; reflexivity.
Qed.

End HeroNames.

(** X10. [heroNamesToIds] returns ids only when every name of the team
    resolves: then the ids are the index entries of the names, in order, and
    the missing-hero log is untouched; otherwise it returns [null] at the
    first name that does not resolve and logs exactly that name under its
    normalized key. *)
Theorem heroNamesToIds_all_or_first_missing (heroNames : list string)
    (heroData : Sweep.HeroData) (missingHeroes : gmap string string) :
  match Sweep.heroNamesToIds heroNames heroData missingHeroes with
  | (Some ids, missing') =>
      missing' = missingHeroes
      /\ Forall2 (fun name id =>
                    Sweep.heroIndex heroData !! normalizeHeroName name = Some id)
                 heroNames ids
  | (None, missing') =>
      exists before name after,
        heroNames = before ++ name :: after
        /\ Forall (fun n => is_Some (Sweep.heroIndex heroData !! normalizeHeroName n))
                  before
        /\ Sweep.heroIndex heroData !! normalizeHeroName name = None
        /\ missing' = <[normalizeHeroName name := name]> missingHeroes
  end.
Proof.
  unfold Sweep.heroNamesToIds.
  pose proof (heroNamesToIds_loop_spec heroData heroNames [] missingHeroes) as H.
  destruct (Sweep.heroNamesToIds_loop [] heroNames heroData missingHeroes)
    as [[ids|] missing']; [|exact H].
  destruct H as (-> & new & -> & Hall). now split.
Qed.

(** X11. Hero-name normalization is idempotent, distributes over
    concatenation, yields only the characters a-z and 0-9, and does not
    depend on the case of a letter: a name and its normalized form resolve
    to the same key. *)
Theorem normalizeHeroName_canonical :
  (forall name, normalizeHeroName (normalizeHeroName name) = normalizeHeroName name)
  /\ (forall a b, normalizeHeroName (a ++ b)
                  = (normalizeHeroName a ++ normalizeHeroName b)%string)
  /\ (forall name, Forall (fun c => is_a_z0_9 c = true)
                          (list_ascii_of_string (normalizeHeroName name)))
  /\ (forall c name, normalizeHeroName (String (toLowerCase c) name)
                     = normalizeHeroName (String c name)).
Proof.
  split; [|split; [|split]].
  - induction name as [|c name IH]; simpl; [reflexivity|].
    destruct (is_a_z0_9 (toLowerCase c)) eqn:E; [|exact IH].
    simpl. rewrite toLowerCase_idem, E. now rewrite IH.
  - induction a as [|c a IH]; intros b; simpl; [reflexivity|].
    destruct (is_a_z0_9 (toLowerCase c)); simpl; now rewrite IH.
  - induction name as [|c name IH]; simpl; [constructor|].
    destruct (is_a_z0_9 (toLowerCase c)) eqn:E; [|exact IH].
    simpl. now constructor.
  - intros c name. simpl. now rewrite toLowerCase_idem.
Qed.

(** ** Further properties of the delta-percentage simulator *)

Section ExecLedger.
Import DeltaPctCustom ExecInv.

Variables (opts : Opts) (mx : Matrix).

Lemma chained_app (records : list BetRecord) :
  forall start mid r,
  chained start records mid ->
  rec_bank_before r = mid ->
  chained start (records ++ [r]) (rec_bank_after r).
Proof.
  induction records as [|r0 records IH]; intros start mid r; simpl.
  - intros -> ->. now split.
  - intros [Hb Hc] Hr. split; [assumption|]. now apply (IH _ mid).
Qed.

Lemma running0 : running opts sim0.
Proof.
  unfold running, ledger, sim0, START_BANK. simpl. repeat split; try lia.
  - exists 1000%Z. split; [lia|reflexivity].
  - constructor.
  - constructor.
Qed.

Lemma running_skip (s : Sim) : running opts s -> running opts (skip s).
Proof. unfold running, ledger, skip. simpl. tauto. Qed.

Lemma running_ended (s : Sim) : running opts s -> ended opts s.
Proof.
  intros (Hl & _ & Hall). split; [assumption|].
  destruct (betRecords s) as [|r rs] using rev_ind; [constructor|].
  rewrite removelast_last. now apply Forall_app in Hall as [Hall _].
Qed.

Lemma stakeFor_bounds (b d : Q) :
  0 <= b ->
  exists z : Z, stakeFor opts b d = inject_Z z
                /\ inject_Z z <= b
                /\ (forall cap, maxBetCap opts = Some cap -> inject_Z z <= cap).
Proof.
  intros Hb. unfold stakeFor.
  set (raw := b * Qmin (Math_abs d / 1000) 1).
  set (capped := match maxBetCap opts with
                 | Some cap => if Qlt_bool cap raw then cap else raw
                 | None => raw
                 end).
  set (clipped := if Qlt_bool b capped then b else capped).
  exists (Math_floor clipped). split; [reflexivity|].
  pose proof (Qfloor_le clipped) as Hfl. unfold Math_floor.
  assert (Hcb : clipped <= b).
  { subst clipped. destruct (Qlt_bool b capped) eqn:E; [lra|].
    now apply Qlt_bool_false in E. }
  split; [lra|].
  intros cap Hcap.
  assert (Hcc : capped <= cap).
  { subst capped. rewrite Hcap. destruct (Qlt_bool cap raw) eqn:E; [lra|].
    now apply Qlt_bool_false in E. }
  assert (clipped <= capped).
  { subst clipped. destruct (Qlt_bool b capped) eqn:E; [|lra].
    apply Qlt_bool_true in E. lra. }
  lra.
Qed.

Lemma settle_ledger (m : Match) (d : Q) (favored : string) (o : Q) (z : Z) (s : Sim) :
  running opts s ->
  (0 < z)%Z -> inject_Z z <= bank s ->
  (forall cap, maxBetCap opts = Some cap -> inject_Z z <= cap) ->
  1 < o ->
  let r := settle m d favored o (inject_Z z) s in
  (snd r = false -> running opts (fst r))
  /\ (snd r = true -> ended opts (fst r) /\ bank (fst r) <= 0).
Proof.
  intros ((Hint & Hcnt & Hlen & Hch & Hrec) & Hpos & Hall) Hz Hle Hcap Ho r.
  destruct Hint as (zb & Hzb & Ezb).
  set (won := String.eqb (winner m) favored).
  set (payout := if won then inject_Z (Math_floor (inject_Z z * o)) else 0).
  set (bank2 := if won then bank s - inject_Z z + payout else bank s - inject_Z z).
  set (record := {| rec_delta := d; rec_favored := favored; rec_odds := o;
                    rec_stake := inject_Z z; rec_won := won; rec_payout := payout;
                    rec_bank_before := bank s; rec_bank_after := bank2 |}).
  assert (Efst : betRecords (fst r) = betRecords s ++ [record]) by reflexivity.
  assert (Ebank : bank (fst r) = bank2) by reflexivity.
  assert (Esnd : snd r = Qle_bool bank2 0) by reflexivity.
  assert (Hrecord : recordOk opts record).
  { unfold recordOk. simpl. repeat split; auto.
    exists z. now split. }
  assert (Hledger : ledger opts (fst r)).
  { unfold ledger. rewrite Efst, Ebank. repeat split.
    - subst bank2 payout. destruct won.
      + exists (zb - z + Math_floor (inject_Z z * o))%Z. split.
        * assert (0 <= Math_floor (inject_Z z * o))%Z.
          { unfold Math_floor. change 0%Z with (Qfloor 0). apply Qfloor_resp_le.
            apply Qmult_le_0_compat; [|lra].
            change 0 with (inject_Z 0). rewrite <- Zle_Qle. lia. }
          assert (inject_Z z <= inject_Z zb) by lra.
          rewrite <- Zle_Qle in H0. lia.
        * unfold Z.sub. rewrite Ezb, !inject_Z_plus, inject_Z_opp. lra.
      + exists (zb - z)%Z. split.
        * assert (inject_Z z <= inject_Z zb) by lra.
          rewrite <- Zle_Qle in H. lia.
        * rewrite Ezb. unfold Z.sub. rewrite inject_Z_plus, inject_Z_opp. lra.
    - subst r. simpl. fold won. destruct won; lia.
    - subst r. simpl. fold won. destruct won; lia.
    - subst r. simpl. fold won. destruct won; lia.
    - subst r. simpl. rewrite length_app. simpl. lia.
    - apply (chained_app _ _ (bank s)); [assumption|reflexivity].
    - apply Forall_app. split; [assumption|]. now apply Forall_singleton. }
  split.
  - intros Hbrk. rewrite Esnd in Hbrk. apply Qle_bool_false in Hbrk.
    split; [exact Hledger|]. rewrite Ebank, Efst. split; [assumption|].
    apply Forall_app. split; [assumption|]. now apply Forall_singleton.
  - intros Hbrk. rewrite Esnd in Hbrk. apply Qle_bool_iff in Hbrk.
    split; [|now rewrite Ebank].
    split; [exact Hledger|]. rewrite Efst, removelast_last. assumption.
Qed.

Lemma body_ledger (m : Match) (s : Sim) (r : Sim * bool) :
  running opts s ->
  body opts mx m s = Ok r ->
  (snd r = false -> running opts (fst r))
  /\ (snd r = true -> ended opts (fst r) /\ bank (fst r) <= 0).
Proof.
  intros Hrun. unfold body.
  assert (Hskip : (snd (skip s, false) = false -> running opts (fst (skip s, false)))
                  /\ (snd (skip s, false) = true ->
                      ended opts (fst (skip s, false)) /\ bank (fst (skip s, false)) <= 0)).
  { split; [intros _; now apply running_skip|discriminate]. }
  destruct (delta mx m) as [[d|]|msg]; simpl;
    [|intros [= <-]; exact Hskip|discriminate].
  destruct (Qeq_bool d 0); [intros [= <-]; exact Hskip|].
  destruct (if Qlt_bool 0 d then team1_odds m else team2_odds m) as [o|];
    [|intros [= <-]; exact Hskip].
  destruct (Qle_bool o 1) eqn:Eo; [intros [= <-]; exact Hskip|].
  apply Qle_bool_false in Eo.
  destruct Hrun as (Hl & Hpos & Hall).
  destruct (stakeFor_bounds (bank s) d ltac:(lra)) as (z & Ez & Hzb & Hzc).
  rewrite Ez.
  assert (Hrun : running opts s) by (split; [exact Hl|split; assumption]).
  destruct (Qle_bool (inject_Z z) 0) eqn:E0.
  { intros [= <-]. simpl. split; [intros _; exact Hrun|discriminate]. }
  apply Qle_bool_false in E0.
  intros [= <-]. apply settle_ledger; auto.
  - change 0 with (inject_Z 0) in E0. now rewrite <- Zlt_Qlt in E0.
Qed.

Lemma loop_ledger (ms : list Match) :
  forall s s',
  running opts s ->
  loop opts mx ms s = Ok s' ->
  ended opts s'
  /\ (bank s' <= 0 -> forall more, loop opts mx (ms ++ more) s = Ok s').
Proof.
  induction ms as [|m ms IH]; intros s s' Hrun; simpl.
  - intros [= <-]. split; [now apply running_ended|].
    intros Hb. destruct Hrun as (_ & Hpos & _). lra.
  - destruct (body opts mx m s) as [r|msg] eqn:Eb; simpl; [|discriminate].
    destruct (body_ledger m s r Hrun Eb) as [Hgo Hstop].
    destruct (snd r) eqn:Ebrk.
    + intros [= <-]. destruct (Hstop eq_refl) as [He Hb].
      split; [exact He|]. intros _ more. reflexivity.
    + intros H. apply (IH _ _ (Hgo eq_refl) H).
Qed.

End ExecLedger.

Lemma max_stake_le_cap (opts : DeltaPctCustom.Opts)
    (records : list DeltaPctCustom.BetRecord) (cap : Q) :
  Forall (ExecInv.recordOk opts) records ->
  DeltaPctCustom.maxBetCap opts = Some cap ->
  forall acc, acc <= cap ->
  fold_left (fun mx r => Qmax mx (DeltaPctCustom.rec_stake r)) records acc <= cap.
Proof.
  intros Hall Hcap. induction Hall as [|r records Hr _ IH]; intros acc Hacc; simpl;
    [assumption|].
  apply IH. destruct Hr as (_ & _ & Hc & _). apply Q.max_lub; auto.
Qed.

(** X12. When [execute] returns, the final bankroll it reports is a whole,
    non-negative number of dollars, the wins are at most the bets, and with a
    positive [maxBet] the reported [max_stake] does not exceed it. *)
Theorem execute_reports_whole_dollars (opts : DeltaPctCustom.Opts)
    (ms : list DeltaPctCustom.Match) (mx : DeltaPctCustom.Matrix)
    (r : DeltaPctCustom.Summary) :
  DeltaPctCustom.execute opts ms mx = Ok r ->
  (exists z : Z, (0 <= z)%Z /\ DeltaPctCustom.final_bank r == inject_Z z)
  /\ (0 <= DeltaPctCustom.sum_wins r <= DeltaPctCustom.sum_bets r)%Z
  /\ (0 < DeltaPctCustom.maxBet opts ->
      DeltaPctCustom.max_stake r <= DeltaPctCustom.maxBet opts).
Proof.
  unfold DeltaPctCustom.execute.
  destruct (DeltaPctCustom.loop opts mx ms DeltaPctCustom.sim0) as [s|msg] eqn:E;
    simpl; [|discriminate].
  intros [= <-].
  destruct (loop_ledger opts mx ms _ s (running0 opts) E)
    as [((Hint & Hcnt & Hlen & Hch & Hrec) & _) _].
  simpl. split; [exact Hint|]. split; [lia|].
  intros Hpos. apply (max_stake_le_cap opts); [assumption| |lra].
  unfold DeltaPctCustom.maxBetCap. now rewrite (Qlt_bool_intro _ _ Hpos).
Qed.

(** The instance of X12 on the ten-hero example. *)
Lemma execute_reports_whole_dollars_witness :
  exists r,
    DeltaPctCustom.execute DeltaPctCustom.cli20_opts [Examples.delta10_match]
      Examples.ten_matrix = Ok r
    /\ (exists z : Z, (0 <= z)%Z /\ DeltaPctCustom.final_bank r == inject_Z z)
    /\ DeltaPctCustom.max_stake r <= 500000.
Proof.
  destruct (DeltaPctCustom.execute DeltaPctCustom.cli20_opts [Examples.delta10_match]
              Examples.ten_matrix) as [r|msg] eqn:E; [|vm_compute in E; discriminate].
  exists r. split; [reflexivity|].
  destruct (execute_reports_whole_dollars DeltaPctCustom.cli20_opts
              [Examples.delta10_match] Examples.ten_matrix r E) as (H1 & _ & H3).
  split; [exact H1|]. apply H3. reflexivity.
Defined.



(** X14. [execute] stops at the bet that empties the bankroll: when its
    loop ends, every row of the ledger but the last leaves a positive
    bankroll; and when it ends with a bankroll of 0 or less, the matches that
    follow in the corpus are not processed, whatever they are. *)
Theorem execute_stops_at_bust (opts : DeltaPctCustom.Opts)
    (ms : list DeltaPctCustom.Match) (mx : DeltaPctCustom.Matrix)
    (s : DeltaPctCustom.Sim) :
  DeltaPctCustom.loop opts mx ms DeltaPctCustom.sim0 = Ok s ->
  Forall (fun r => 0 < DeltaPctCustom.rec_bank_after r)
         (removelast (DeltaPctCustom.betRecords s))
  /\ (DeltaPctCustom.bank s <= 0 ->
      forall more,
        DeltaPctCustom.loop opts mx (ms ++ more) DeltaPctCustom.sim0 = Ok s).
Proof.
  intros E.
  destruct (loop_ledger opts mx ms _ s (running0 opts) E) as [[_ Hall] Hstop].
  now split.
Qed.

(** The instance of X14 on the all-in example: the first match is lost
    with the whole bankroll staked, and the unresolvable match after it is
    never reached. *)
Lemma execute_stops_at_bust_witness :
  exists s,
    DeltaPctCustom.loop DeltaPctCustom.cli20_opts Examples.allin_matrix
      [Examples.lost_match] DeltaPctCustom.sim0 = Ok s
    /\ DeltaPctCustom.bank s <= 0
    /\ DeltaPctCustom.loop DeltaPctCustom.cli20_opts Examples.allin_matrix
         ([Examples.lost_match] ++ [Examples.unresolved_match]) DeltaPctCustom.sim0
       = Ok s.
Proof.
  destruct (DeltaPctCustom.loop DeltaPctCustom.cli20_opts Examples.allin_matrix
              [Examples.lost_match] DeltaPctCustom.sim0)
    as [s|msg] eqn:E; [|vm_compute in E; discriminate].
  assert (Hb : DeltaPctCustom.bank s <= 0).
  { vm_compute in E. injection E as <-. vm_compute. discriminate. }
  exists s. split; [reflexivity|]. split; [exact Hb|].
  exact (proj2 (execute_stops_at_bust DeltaPctCustom.cli20_opts [Examples.lost_match]
                  Examples.allin_matrix s E) Hb [Examples.unresolved_match]).
Defined.

Section ToFixed.

Lemma Qlt_bool_comp (a b c d : Q) : a == c -> b == d -> Qlt_bool a b = Qlt_bool c d.
Proof. intros H1 H2. unfold Qlt_bool. now rewrite (Qleb_comp _ _ H2 _ _ H1). Qed.

Lemma toFixed_comp (digits : nat) (x y : Q) : x == y -> toFixed digits x = toFixed digits y.
Proof.
  intros H. unfold toFixed.
  rewrite (Qlt_bool_comp x 0 y 0 H (Qeq_refl 0)).
  set (scale := inject_Z (10 ^ Z.of_nat digits)).
  rewrite (Qfloor_comp (- x * scale + (1 # 2)) (- y * scale + (1 # 2)))
    by (rewrite H; reflexivity).
  rewrite (Qfloor_comp (x * scale + (1 # 2)) (y * scale + (1 # 2)))
    by (rewrite H; reflexivity).
  reflexivity.
Qed.

Lemma toFixed_opp (digits : nat) (x : Q) : toFixed digits (- x) == - toFixed digits x.
Proof.
  unfold toFixed. set (scale := inject_Z (10 ^ Z.of_nat digits)).
  destruct (Qlt_bool x 0) eqn:Ex.
  - apply Qlt_bool_true in Ex.
    assert (E : Qlt_bool (- x) 0 = false).
    { unfold Qlt_bool. apply negb_false_iff, Qle_bool_iff. lra. }
    rewrite E. lra.
  - apply Qlt_bool_false in Ex.
    destruct (Qlt_bool (- x) 0) eqn:E.
    + rewrite (Qfloor_comp (- - x * scale + (1 # 2)) (x * scale + (1 # 2)))
        by (rewrite Qopp_involutive; reflexivity).
      reflexivity.
    + apply Qlt_bool_false in E.
      assert (Hx : x == 0) by lra.
      rewrite (Qfloor_comp (- x * scale + (1 # 2)) (1 # 2)) by (rewrite Hx; lra).
      rewrite (Qfloor_comp (x * scale + (1 # 2)) (1 # 2)) by (rewrite Hx; lra).
      change (Qfloor (1 # 2)) with 0%Z. change (inject_Z 0) with 0.
      unfold Qdiv. rewrite Qmult_0_l. reflexivity.
Qed.

End ToFixed.

(** X15. Exchanging the two sides of a match negates its delta: when
    [delta] returns a number for a match, it returns the opposite number for
    the match with team 1 and team 2 exchanged, so that the delta-favoured
    team of a non-zero delta is the same team either way. *)
Theorem delta_swaps_sign (mx : DeltaPctCustom.Matrix) (m : DeltaPctCustom.Match)
    (d : Q) :
  DeltaPctCustom.delta mx m = Ok (Some d) ->
  exists d',
    DeltaPctCustom.delta mx (ExecInv.swapTeams m) = Ok (Some d')
    /\ d' == - d
    /\ (~ d == 0 ->
        (if Qlt_bool 0 d' then DeltaPctCustom.team1 (ExecInv.swapTeams m)
         else DeltaPctCustom.team2 (ExecInv.swapTeams m))
        = (if Qlt_bool 0 d then DeltaPctCustom.team1 m else DeltaPctCustom.team2 m)).
Proof.
  unfold DeltaPctCustom.delta. simpl.
  destruct (length (DeltaPctCustom.team1_heroes m) =? 5)%nat; simpl;
    [|discriminate].
  destruct (length (DeltaPctCustom.team2_heroes m) =? 5)%nat; simpl;
    [|discriminate].
  destruct (DeltaPctCustom.teamScore mx (DeltaPctCustom.team1_heroes m)
              (DeltaPctCustom.team2_heroes m) 0) as [s1|]; simpl; [|discriminate].
  destruct (DeltaPctCustom.teamScore mx (DeltaPctCustom.team2_heroes m)
              (DeltaPctCustom.team1_heroes m) 0) as [s2|]; simpl; [|discriminate].
  intros [= <-]. eexists. split; [reflexivity|].
  assert (E : toFixed 4 (s2 - s1) == - toFixed 4 (s1 - s2)).
  { rewrite <- toFixed_opp. rewrite (toFixed_comp 4 (s2 - s1) (- (s1 - s2))); [reflexivity|].
    lra. }
  split; [exact E|].
  intros Hnz. set (d := toFixed 4 (s1 - s2)) in *. set (d' := toFixed 4 (s2 - s1)) in *.
  destruct (Qlt_bool 0 d) eqn:E1; [apply Qlt_bool_true in E1|apply Qlt_bool_false in E1];
  destruct (Qlt_bool 0 d') eqn:E2; [apply Qlt_bool_true in E2|apply Qlt_bool_false in E2
                                   |apply Qlt_bool_true in E2|apply Qlt_bool_false in E2];
    try reflexivity; exfalso.
  - lra.
  - apply Hnz. lra.
Qed.

(** The instance of X15 on the ten-hero example: delta 10 one way, -10 the
    other. *)
Lemma delta_swaps_sign_witness :
  DeltaPctCustom.delta Examples.ten_matrix Examples.delta10_match
  = Ok (Some (toFixed 4 10))
  /\ exists d',
       DeltaPctCustom.delta Examples.ten_matrix
         (ExecInv.swapTeams Examples.delta10_match) = Ok (Some d')
       /\ d' == - toFixed 4 10.
Proof.
  assert (H : DeltaPctCustom.delta Examples.ten_matrix Examples.delta10_match
              = Ok (Some (toFixed 4 10))) by (vm_compute; reflexivity).
  split; [exact H|].
  destruct (delta_swaps_sign Examples.ten_matrix Examples.delta10_match _ H)
    as (d' & H1 & H2 & _).
  now exists d'.
Defined.

Section TwoSimulators.
Import ExecInv.

Variables (mx : DeltaPctCustom.Matrix) (minDelta : option Q).

Lemma stakeFor_agree (b d : Q) :
  DeltaPctCustom.stakeFor (defaultOpts minDelta) b d = DeltaPctStrategy.stakeFor b d.
Proof. reflexivity. Qed.

Lemma bodies_agree (m : DeltaPctCustom.Match) (s : DeltaPctCustom.Sim)
    (s' : DeltaPctStrategy.Sim) :
  agree s s' -> oddsValid m ->
  match DeltaPctCustom.body (defaultOpts minDelta) mx m s, DeltaPctStrategy.body mx m s' with
  | Ok r, Ok r' => agree (fst r) (fst r') /\ snd r = snd r'
  | Throw msg, Throw msg' => msg = msg'
  | _, _ => False
  end.
Proof.
  intros Hag (a & b & Ha & Hb & H1a & H1b).
  assert (Hskip : agree (DeltaPctCustom.skip s) (DeltaPctStrategy.skip s')).
  { unfold agree in *. simpl. destruct Hag as (? & ? & ? & ? & ? & ? & ->). tauto. }
  unfold DeltaPctCustom.body, DeltaPctStrategy.body, DeltaPctStrategy.delta.
  destruct (DeltaPctCustom.delta mx m) as [[d|]|msg]; simpl; [|now split|reflexivity].
  destruct (Qeq_bool d 0); [now split|].
  rewrite Ha, Hb.
  assert (Ea : Qle_bool a 1 = false).
  { destruct (Qle_bool a 1) eqn:E; [|reflexivity]. apply Qle_bool_iff in E. lra. }
  assert (Eb : Qle_bool b 1 = false).
  { destruct (Qle_bool b 1) eqn:E; [|reflexivity]. apply Qle_bool_iff in E. lra. }
  rewrite stakeFor_agree.
  destruct Hag as (Hbank & Hpeak & Hdd & Hbets & Hwins & Hlosses & Hskipped).
  rewrite <- Hbank.
  destruct (Qlt_bool 0 d); rewrite Ea, Eb; simpl;
    (destruct (Qle_bool (DeltaPctStrategy.stakeFor (DeltaPctCustom.bank s) d) 0);
     [split; [unfold agree; tauto|reflexivity]|]);
    (split; [|simpl; now rewrite <- Hbank]);
    unfold agree; simpl;
    rewrite <- Hbank, <- Hpeak, <- Hdd, <- Hbets, <- Hwins, <- Hlosses, <- Hskipped;
    repeat split.
Qed.

Lemma loops_agree (ms : list DeltaPctCustom.Match) :
  Forall oddsValid ms ->
  forall s s', agree s s' ->
  match DeltaPctCustom.loop (defaultOpts minDelta) mx ms s, DeltaPctStrategy.loop mx ms s' with
  | Ok r, Ok r' => agree r r'
  | Throw msg, Throw msg' => msg = msg'
  | _, _ => False
  end.
Proof.
  induction 1 as [|m ms Hm _ IH]; intros s s' Hag; simpl; [exact Hag|].
  pose proof (bodies_agree m s s' Hag Hm) as Hb.
  destruct (DeltaPctCustom.body (defaultOpts minDelta) mx m s) as [r|msg],
           (DeltaPctStrategy.body mx m s') as [r'|msg']; simpl; try contradiction;
    [|exact Hb].
  destruct Hb as [Hag' <-].
  destruct (snd r); [exact Hag'|now apply IH].
Qed.

End TwoSimulators.

(** X16. On a corpus whose rows all have both odds above 1, [run] of
    delta_pct_strategy.js and [execute] called with [maxBet] = 10000 do the
    same: both throw the same exception, or both end with the same bankroll,
    peak, maximum drawdown, bets, wins, losses and skipped count, whatever
    [minDelta] is passed. *)
Theorem run_agrees_with_execute (mx : DeltaPctCustom.Matrix) (minDelta : option Q)
    (ms : list DeltaPctCustom.Match) :
  Forall ExecInv.oddsValid ms ->
  match DeltaPctCustom.loop
          {| DeltaPctCustom.maxBet := 10000; DeltaPctCustom.minDelta := minDelta |}
          mx ms DeltaPctCustom.sim0,
        DeltaPctStrategy.run ms mx with
  | Ok s, Ok s' => ExecInv.agree s s'
  | Throw msg, Throw msg' => msg = msg'
  | _, _ => False
  end.
Proof.
  intros Hall. unfold DeltaPctStrategy.run.
  apply loops_agree; [exact Hall|].
  unfold ExecInv.agree. simpl. repeat split.
Qed.

(** The instance of X16 on two matches of the ten-hero example. *)
Lemma run_agrees_with_execute_witness :
  Forall ExecInv.oddsValid [Examples.delta10_match; Examples.lost_match]
  /\ match DeltaPctCustom.loop
             {| DeltaPctCustom.maxBet := 10000; DeltaPctCustom.minDelta := Some 20 |}
             Examples.ten_matrix [Examples.delta10_match; Examples.lost_match]
             DeltaPctCustom.sim0,
           DeltaPctStrategy.run [Examples.delta10_match; Examples.lost_match]
             Examples.ten_matrix with
     | Ok s, Ok s' => ExecInv.agree s s'
     | Throw msg, Throw msg' => msg = msg'
     | _, _ => False
     end.
Proof.
  assert (H : Forall ExecInv.oddsValid [Examples.delta10_match; Examples.lost_match]).
  { repeat constructor; exists 2, 2; repeat split; reflexivity. }
  split; [exact H|].
  exact (run_agrees_with_execute Examples.ten_matrix (Some 20)
           [Examples.delta10_match; Examples.lost_match] H).
Defined.

(** ** Further properties of the matrix builder *)

Section PairWins.
Import BuildCsMatrix BuildInv.

Lemma bumpCell_wins (n a b : nat) (win : bool) (ps ps' : PairStats) :
  square n ps ->
  (b < n)%nat ->
  bumpCell a b win ps = Ok ps' ->
  forall i j,
    pairWins ps' i j = (pairWins ps i j + if win then hit i j a b else 0)%Z.
Proof.
  intros [Hlen Hrows] Hb. unfold bumpCell.
  destruct (ps !! a) as [row|] eqn:Ea; [|discriminate].
  intros [= <-].
  assert (Hrow : length row = n).
  { rewrite Forall_lookup in Hrows. exact (Hrows a row Ea). }
  assert (Ha : (a < length ps)%nat) by now apply lookup_lt_Some in Ea.
  intros i j. unfold pairWins, hit.
  destruct (decide (i = a)) as [->|Hia].
  - rewrite list_lookup_insert_eq by assumption. rewrite Ea.
    destruct (decide (j = b)) as [->|Hjb].
    + rewrite list_lookup_insert_eq by lia.
      rewrite decide_True by auto. simpl.
      destruct (row !! b) as [[cell|]|], win; simpl; lia.
    + rewrite list_lookup_insert_ne by auto.
      rewrite decide_False by tauto. destruct win; lia.
  - rewrite list_lookup_insert_ne by auto.
    rewrite decide_False by tauto. destruct win; lia.
Qed.

Lemma updatePair_complementary (n r d : nat) (radiantWin : bool) (ps ps' : PairStats) :
  square n ps -> complementary ps ->
  updatePair r d radiantWin ps = Ok ps' ->
  square n ps' /\ complementary ps'.
Proof.
  intros Hsq Hc E.
  destruct (updatePair_games n r d radiantWin ps ps' Hsq E) as [Hsq' G].
  split; [assumption|].
  unfold updatePair in E.
  destruct (bumpCell r d radiantWin ps) as [ps1|] eqn:E1; simpl in E; [|discriminate].
  destruct (bumpCell_shape _ _ _ _ _ E1) as [Hr Hlen1].
  destruct (bumpCell_shape _ _ _ _ _ E) as [Hd _].
  assert (Hn : length ps = n) by apply Hsq.
  destruct (bumpCell_games n r d radiantWin ps ps1 Hsq ltac:(lia) E1) as [Hsq1 _].
  pose proof (bumpCell_wins n r d radiantWin ps ps1 Hsq ltac:(lia) E1) as W1.
  pose proof (bumpCell_wins n d r (negb radiantWin) ps1 ps' Hsq1 ltac:(lia) E) as W2.
  intros i j. destruct (Hc i j) as [H0 Hsum].
  rewrite !W2, !W1, G.
  rewrite (hit_swap j i r d), (hit_swap j i d r).
  assert (Hh1 : (0 <= hit i j r d <= 1)%Z) by (unfold hit; destruct (decide _); lia).
  assert (Hh2 : (0 <= hit i j d r <= 1)%Z) by (unfold hit; destruct (decide _); lia).
  destruct radiantWin; simpl; lia.
Qed.

Lemma forDire_complementary (n r : nat) (radiantWin : bool) (dire : list nat) :
  forall ps ps',
  square n ps -> complementary ps ->
  forDire r dire radiantWin ps = Ok ps' ->
  square n ps' /\ complementary ps'.
Proof.
  induction dire as [|d dire IH]; intros ps ps' Hsq Hc; simpl.
  - now intros [= <-].
  - destruct (updatePair r d radiantWin ps) as [ps1|] eqn:E; simpl; [|discriminate].
    destruct (updatePair_complementary n r d radiantWin ps ps1 Hsq Hc E).
    now apply IH.
Qed.

Lemma forRadiant_complementary (n : nat) (radiantWin : bool) (radiant dire : list nat) :
  forall ps ps',
  square n ps -> complementary ps ->
  forRadiant radiant dire radiantWin ps = Ok ps' ->
  square n ps' /\ complementary ps'.
Proof.
  induction radiant as [|r radiant IH]; intros ps ps' Hsq Hc; simpl.
  - now intros [= <-].
  - destruct (forDire r dire radiantWin ps) as [ps1|] eqn:E; simpl; [|discriminate].
    destruct (forDire_complementary n r radiantWin dire ps ps1 Hsq Hc E).
    now apply IH.
Qed.

Lemma pairWins0 (n i j : nat) : pairWins (pairStats (build0 n)) i j = 0%Z.
Proof.
  unfold pairWins. simpl.
  destruct (_ !! i) as [row|] eqn:E; [|reflexivity].
  apply lookup_replicate in E as [-> _].
  destruct (_ !! j) as [c|] eqn:E'; [|reflexivity].
  now apply lookup_replicate in E' as [-> _].
Qed.

Lemma ingestAll_complementary (n : nat) (heroMap : HeroMap) (raw : list RawMatch) :
  forall b b',
  square n (pairStats b) -> complementary (pairStats b) ->
  ingestAll heroMap raw b = Ok b' ->
  square n (pairStats b') /\ complementary (pairStats b').
Proof.
  induction raw as [|m raw IH]; intros b b' Hsq Hc; simpl.
  - now intros [= <-].
  - destruct (ingest heroMap m b) as [b1|] eqn:E; simpl; [|discriminate].
    assert (H1 : square n (pairStats b1) /\ complementary (pairStats b1)).
    { unfold ingest in E.
      destruct (normalizeHeroIds (radiantRoles m) heroMap) as [radiant|];
        [|injection E as <-; now split].
      destruct (normalizeHeroIds (direRoles m) heroMap) as [dire|];
        [|injection E as <-; now split].
      destruct (updateHeroes radiant _ _) as [hs1|]; simpl in E; [|discriminate].
      destruct (updateHeroes dire _ _) as [hs2|]; simpl in E; [|discriminate].
      destruct (forRadiant radiant dire (radiantWin m) (pairStats b)) as [ps|] eqn:Ef;
        simpl in E; [|discriminate].
      injection E as <-. simpl.
      now apply (forRadiant_complementary n _ _ _ _ _ Hsq Hc Ef). }
    destruct H1. now apply IH.
Qed.


End PairWins.



Section TransposedOnBuilt.
Import ScorerSpec.


End TransposedOnBuilt.



Section HeroTotals.
Import BuildCsMatrix BuildInv.

Lemma sums_insert (heroStats : list Counter) :
  forall id hs hs',
  heroStats !! id = Some hs ->
  sumGames (<[id := hs']> heroStats) = (sumGames heroStats - games hs + games hs')%Z
  /\ sumWins (<[id := hs']> heroStats) = (sumWins heroStats - wins hs + wins hs')%Z.
Proof.
  induction heroStats as [|h rest IH]; intros [|id] hs hs' E; simpl in *;
    try discriminate.
  - injection E as ->. lia.
  - destruct (IH id hs hs' E) as [-> ->]. lia.
Qed.

Lemma updateHero_totals (id : nat) (win : bool) (heroStats heroStats' : list Counter) :
  Forall (fun hs => (0 <= wins hs <= games hs)%Z) heroStats ->
  updateHero id win heroStats = Ok heroStats' ->
  length heroStats' = length heroStats
  /\ sumGames heroStats' = (sumGames heroStats + 1)%Z
  /\ sumWins heroStats' = (sumWins heroStats + if win then 1 else 0)%Z
  /\ Forall (fun hs => (0 <= wins hs <= games hs)%Z) heroStats'.
Proof.
  intros Hall. unfold updateHero.
  destruct (heroStats !! id) as [hs|] eqn:E; [|discriminate].
  intros [= <-].
  destruct (sums_insert heroStats id hs
              {| games := (games hs + 1)%Z;
                 wins := if win then (wins hs + 1)%Z else wins hs |} E) as [-> ->].
  assert (Hhs : (0 <= wins hs <= games hs)%Z).
  { rewrite Forall_lookup in Hall. exact (Hall id hs E). }
  split; [apply length_insert|]. simpl.
  split; [lia|]. split; [destruct win; lia|].
  apply Forall_insert; [assumption|]. simpl. destruct win; lia.
Qed.

Lemma updateHeroes_totals (ids : list nat) (win : bool) :
  forall heroStats heroStats',
  Forall (fun hs => (0 <= wins hs <= games hs)%Z) heroStats ->
  updateHeroes ids win heroStats = Ok heroStats' ->
  length heroStats' = length heroStats
  /\ sumGames heroStats' = (sumGames heroStats + Z.of_nat (length ids))%Z
  /\ sumWins heroStats'
     = (sumWins heroStats + if win then Z.of_nat (length ids) else 0)%Z
  /\ Forall (fun hs => (0 <= wins hs <= games hs)%Z) heroStats'.
Proof.
  induction ids as [|id ids IH]; intros hs hs' Hall; simpl updateHeroes.
  - intros [= <-]. simpl. repeat split; [lia|destruct win; lia|assumption].
  - destruct (updateHero id win hs) as [hs1|] eqn:E; simpl; [|discriminate].
    intros E'.
    destruct (updateHero_totals id win hs hs1 Hall E) as (L1 & G1 & W1 & A1).
    destruct (IH hs1 hs' A1 E') as (L2 & G2 & W2 & A2).
    rewrite L2, G2, W2, L1, G1, W1.
    repeat split; [|destruct win|assumption];
      change (length (id :: ids)) with (S (length ids)); lia.
Qed.

Lemma normalizeHeroIds_five (rawHeroes : list Z) (heroMap : HeroMap) :
  forall ids out,
  normalizeHeroIds_loop ids rawHeroes heroMap = Some out ->
  length out = 5%nat /\ length out = (length ids + length rawHeroes)%nat.
Proof.
  induction rawHeroes as [|h rest IH]; intros ids out; simpl.
  - destruct (Nat.eqb_spec (length ids) 5); [|discriminate].
    intros [= <-]. lia.
  - destruct (heroMap !! h) as [mapped|]; [|discriminate].
    intros E. destruct (IH _ _ E) as [H5 Hl].
    rewrite length_app in Hl. simpl in Hl. lia.
Qed.

Lemma heroTotals0 (n : nat) : heroTotals n (build0 n).
Proof.
  unfold heroTotals. simpl. rewrite length_replicate.
  split; [reflexivity|].
  assert (H : sumGames (replicate n counter0) = 0%Z /\ sumWins (replicate n counter0) = 0%Z).
  { induction n as [|n IH]; simpl; [auto|]. destruct IH as [-> ->]. auto. }
  destruct H as [-> ->].
  repeat split; try lia.
  apply Forall_replicate. simpl. lia.
Qed.

Lemma ingest_totals (n : nat) (heroMap : HeroMap) (m : RawMatch) (b b' : Build) :
  heroTotals n b ->
  ingest heroMap m b = Ok b' ->
  heroTotals n b'
  /\ (processed b' + skipped b' = processed b + skipped b + 1)%Z.
Proof.
  intros (Hlen & Hg & Hw & Hall & Hp & Hs). unfold ingest.
  destruct (normalizeHeroIds (radiantRoles m) heroMap) as [radiant|] eqn:Er;
    [|intros [= <-]; unfold heroTotals; simpl; repeat split; auto; lia].
  destruct (normalizeHeroIds (direRoles m) heroMap) as [dire|] eqn:Ed;
    [|intros [= <-]; unfold heroTotals; simpl; repeat split; auto; lia].
  destruct (normalizeHeroIds_five _ _ _ _ Er) as [Hr5 _].
  destruct (normalizeHeroIds_five _ _ _ _ Ed) as [Hd5 _].
  destruct (updateHeroes radiant (radiantWin m) (heroStats b)) as [hs1|] eqn:E1;
    simpl; [|discriminate].
  destruct (updateHeroes dire (negb (radiantWin m)) hs1) as [hs2|] eqn:E2;
    simpl; [|discriminate].
  destruct (forRadiant radiant dire (radiantWin m) (pairStats b)) as [ps|];
    simpl; [|discriminate].
  intros [= <-].
  destruct (updateHeroes_totals _ _ _ _ Hall E1) as (L1 & G1 & W1 & A1).
  destruct (updateHeroes_totals _ _ _ _ A1 E2) as (L2 & G2 & W2 & A2).
  unfold heroTotals. simpl.
  rewrite L2, G2, W2, L1, G1, W1, Hr5, Hd5, Hg, Hw.
  repeat split; auto; try lia.
  destruct (radiantWin m); simpl; lia.
Qed.

Lemma ingestAll_totals (n : nat) (heroMap : HeroMap) (raw : list RawMatch) :
  forall b b',
  heroTotals n b ->
  ingestAll heroMap raw b = Ok b' ->
  heroTotals n b'
  /\ (processed b' + skipped b' = processed b + skipped b + Z.of_nat (length raw))%Z.
Proof.
  induction raw as [|m raw IH]; intros b b' Hb; simpl ingestAll.
  - intros [= <-]. split; [assumption|]. simpl. lia.
  - destruct (ingest heroMap m b) as [b1|] eqn:E; simpl; [|discriminate].
    intros E'.
    destruct (ingest_totals n heroMap m b b1 Hb E) as [Hb1 H1].
    destruct (IH b1 b' Hb1 E') as [Hb' H'].
    split; [assumption|].
    change (length (m :: raw)) with (S (length raw)). lia.
Qed.

End HeroTotals.

(** X19. When the loop of [buildMatrix] ends, every input match has been
    counted once, as processed or as skipped; the per-hero games add up to
    ten per processed match and the per-hero wins to five; and no hero has
    more wins than games. *)
Theorem buildMatrix_hero_totals (raw : list BuildCsMatrix.RawMatch) (heroCount : nat)
    (heroMap : gmap Z nat) (b : BuildCsMatrix.Build) :
  BuildCsMatrix.ingestAll heroMap raw (BuildCsMatrix.build0 heroCount) = Ok b ->
  (BuildCsMatrix.processed b + BuildCsMatrix.skipped b = Z.of_nat (length raw))%Z
  /\ (0 <= BuildCsMatrix.processed b)%Z /\ (0 <= BuildCsMatrix.skipped b)%Z
  /\ BuildInv.sumGames (BuildCsMatrix.heroStats b) = (10 * BuildCsMatrix.processed b)%Z
  /\ BuildInv.sumWins (BuildCsMatrix.heroStats b) = (5 * BuildCsMatrix.processed b)%Z
  /\ Forall (fun hs => (0 <= BuildCsMatrix.wins hs <= BuildCsMatrix.games hs)%Z)
       (BuildCsMatrix.heroStats b).
Proof.
  intros E.
  destruct (ingestAll_totals heroCount heroMap raw _ b (heroTotals0 heroCount) E)
    as [(_ & Hg & Hw & Hall & Hp & Hs) Hsum].
  simpl in Hsum. repeat split; auto; lia.
Qed.

(** The instance of X19 on one processed match followed by one match with
    four radiant heroes, which is skipped: ten hero games and five hero wins
    from two input matches. *)
Lemma buildMatrix_hero_totals_witness :
  exists b,
    BuildCsMatrix.ingestAll Examples.ten_heroMap
      [Examples.one_raw_match;
       {| BuildCsMatrix.radiantRoles := [1; 2; 3; 4]%Z;
          BuildCsMatrix.direRoles := [6; 7; 8; 9; 10]%Z;
          BuildCsMatrix.radiantWin := false |}]
      (BuildCsMatrix.build0 10) = Ok b
    /\ BuildCsMatrix.processed b = 1%Z /\ BuildCsMatrix.skipped b = 1%Z
    /\ BuildInv.sumGames (BuildCsMatrix.heroStats b) = (10 * BuildCsMatrix.processed b)%Z
    /\ BuildInv.sumWins (BuildCsMatrix.heroStats b) = (5 * BuildCsMatrix.processed b)%Z.
Proof.
  match goal with
  | |- exists b, ?run = Ok b /\ _ =>
      destruct run as [b|msg] eqn:E; [|vm_compute in E; discriminate]
  end.
  exists b. split; [reflexivity|].
  destruct (buildMatrix_hero_totals _ _ _ b E) as (_ & _ & _ & Hg & Hw & _).
  split; [|split; [|split; assumption]].
  - vm_compute in E. injection E as <-. reflexivity.
  - vm_compute in E. injection E as <-. reflexivity.
Defined.

Section ToFixedRange.

Lemma Qfloor_half (n : Z) : Qfloor (inject_Z n + (1 # 2)) = n.
Proof.
  pose proof (Qfloor_le (inject_Z n + (1 # 2))) as Hle.
  pose proof (Qlt_floor (inject_Z n + (1 # 2))) as Hlt.
  set (f := Qfloor (inject_Z n + (1 # 2))) in *. clearbody f.
  unfold Qle in Hle. unfold Qlt in Hlt. simpl in Hle, Hlt. lia.
Qed.

Lemma scale_pos (digits : nat) : 0 < inject_Z (10 ^ Z.of_nat digits).
Proof.
  change 0 with (inject_Z 0). rewrite <- Zlt_Qlt. apply Z.pow_pos_nonneg; lia.
Qed.

Lemma toFixed_le_int (digits : nat) (x : Q) (k : Z) :
  x <= inject_Z k -> toFixed digits x <= inject_Z k.
Proof.
  intros Hx. unfold toFixed.
  pose proof (scale_pos digits) as Hs.
  set (S := (10 ^ Z.of_nat digits)%Z) in *.
  destruct (Qlt_bool x 0).
  - assert (H : (Qfloor (inject_Z (- k * S) + (1 # 2))
                 <= Qfloor (- x * inject_Z S + (1 # 2)))%Z).
    { apply Qfloor_resp_le. rewrite inject_Z_mult, inject_Z_opp. nra. }
    rewrite Qfloor_half in H. rewrite Zle_Qle in H.
    rewrite inject_Z_mult, inject_Z_opp in H.
    set (F := inject_Z (Qfloor (- x * inject_Z S + (1 # 2)))) in *. clearbody F.
    assert (H' : - inject_Z k <= F / inject_Z S).
    { apply Qle_shift_div_l; assumption. }
    lra.
  - assert (H : (Qfloor (x * inject_Z S + (1 # 2))
                 <= Qfloor (inject_Z (k * S) + (1 # 2)))%Z).
    { apply Qfloor_resp_le. rewrite inject_Z_mult. nra. }
    rewrite Qfloor_half in H. rewrite Zle_Qle in H.
    rewrite inject_Z_mult in H.
    apply Qle_shift_div_r; assumption.
Qed.

Lemma toFixed_ge_int (digits : nat) (x : Q) (k : Z) :
  inject_Z k <= x -> inject_Z k <= toFixed digits x.
Proof.
  intros Hx.
  assert (H : toFixed digits (- x) <= inject_Z (- k)).
  { apply toFixed_le_int. rewrite inject_Z_opp. lra. }
  rewrite toFixed_opp, inject_Z_opp in H. lra.
Qed.

Lemma ratio_pct_range (w g : Z) :
  (0 <= w <= g)%Z -> (0 < g)%Z ->
  0 <= inject_Z w / inject_Z g * 100 <= 100.
Proof.
  intros Hw Hg.
  assert (Hg' : 0 < inject_Z g) by (change 0 with (inject_Z 0); now rewrite <- Zlt_Qlt).
  assert (H0 : 0 <= inject_Z w / inject_Z g).
  { apply Qle_shift_div_l; [assumption|].
    rewrite Qmult_0_l. change 0 with (inject_Z 0). rewrite <- Zle_Qle. lia. }
  assert (H1 : inject_Z w / inject_Z g <= 1).
  { apply Qle_shift_div_r; [assumption|].
    rewrite Qmult_1_l. rewrite <- Zle_Qle. lia. }
  lra.
Qed.

End ToFixedRange.

Section BuiltOutput.
Import BuildCsMatrix BuildInv.

Lemma heroWr_range (hs : Counter) :
  (0 <= wins hs <= games hs)%Z -> 0 <= heroWr hs <= 100.
Proof.
  intros H. unfold heroWr.
  destruct (Z.eqb_spec (games hs) 0) as [E|E].
  - split.
    + apply (toFixed_ge_int 2 50 0). discriminate.
    + apply (toFixed_le_int 2 50 100). discriminate.
  - destruct (ratio_pct_range (wins hs) (games hs) H ltac:(lia)) as [H0 H1].
    split.
    + now apply (toFixed_ge_int 2 _ 0).
    + now apply (toFixed_le_int 2 _ 100).
Qed.

Lemma cellOut_range (ps : PairStats) (i j : nat) (row : list (option Counter))
    (cell : option Counter) :
  complementary ps ->
  ps !! i = Some row -> row !! j = Some cell ->
  cellInRange (cellOut cell).
Proof.
  intros Hc Ei Ej.
  destruct cell as [c|]; simpl; [|exact I].
  destruct (Z.eqb_spec (games c) 0) as [E|E]; simpl; [exact I|].
  destruct (Hc i j) as [H0 Hsum]. destruct (Hc j i) as [H0' _].
  assert (Ew : pairWins ps i j = wins c) by (unfold pairWins; now rewrite Ei, Ej).
  assert (Eg : pairGames ps i j = games c) by (unfold pairGames; now rewrite Ei, Ej).
  rewrite Ew, Eg in Hsum. rewrite Ew in H0.
  assert (Hw : (0 <= wins c <= games c)%Z) by lia.
  destruct (ratio_pct_range (wins c) (games c) Hw ltac:(lia)) as [Hlo Hhi].
  set (wr := inject_Z (wins c) / inject_Z (games c) * 100) in *. clearbody wr.
  split; [lia|]. split; split.
  - now apply (toFixed_ge_int 4 _ 0).
  - now apply (toFixed_le_int 4 _ 100).
  - apply (toFixed_ge_int 4 _ (-50)). change (inject_Z (-50)) with (-50). lra.
  - apply (toFixed_le_int 4 _ 50). change (inject_Z 50) with 50. lra.
Qed.

End BuiltOutput.

(** X20. Every result of [buildMatrix] has one [heroesWr] entry per hero,
    each between 0 and 100, and a [heroCount] by [heroCount] array
    [winRates] whose cells are [null] or hold at least one game, a win rate
    between 0 and 100 and an advantage between -50 and 50; and the
    [processed] and [skipped] it reports add up to the number of input
    matches. *)
Theorem buildMatrix_output_in_range (raw : list BuildCsMatrix.RawMatch)
    (heroCount : nat) (heroMap : gmap Z nat) (built : BuildCsMatrix.Built) :
  BuildCsMatrix.buildMatrix raw heroCount heroMap = Ok built ->
  length (BuildCsMatrix.heroesWr built) = heroCount
  /\ Forall (fun wr => 0 <= wr <= 100) (BuildCsMatrix.heroesWr built)
  /\ length (BuildCsMatrix.winRates built) = heroCount
  /\ Forall (fun row => length row = heroCount /\ Forall BuildInv.cellInRange row)
       (BuildCsMatrix.winRates built)
  /\ (BuildCsMatrix.out_processed built + BuildCsMatrix.out_skipped built
      = Z.of_nat (length raw))%Z.
Proof.
  unfold BuildCsMatrix.buildMatrix.
  destruct (BuildCsMatrix.ingestAll heroMap raw (BuildCsMatrix.build0 heroCount))
    as [b|msg] eqn:E; simpl; [|discriminate].
  intros [= <-]. simpl.
  destruct (ingestAll_totals heroCount heroMap raw _ b (heroTotals0 heroCount) E)
    as [(Hlen & _ & _ & Hall & _) Hsum].
  assert (Hc0 : BuildInv.complementary
                  (BuildCsMatrix.pairStats (BuildCsMatrix.build0 heroCount))).
  { intros a c. rewrite !pairWins0, pairGames0. lia. }
  destruct (ingestAll_complementary heroCount heroMap raw _ b
              (square0 heroCount) Hc0 E) as [[Hn Hrows] Hc].
  split; [now rewrite length_map|].
  split.
  { apply Forall_map. eapply Forall_impl; [exact Hall|].
    intros hs Hhs. now apply heroWr_range. }
  split; [now rewrite length_map|].
  split; [|simpl in Hsum; lia].
  apply Forall_map. apply Forall_lookup. intros i row Ei. simpl.
  split.
  - rewrite length_map. rewrite Forall_lookup in Hrows. exact (Hrows i row Ei).
  - apply Forall_map. apply Forall_lookup. intros j cell Ej. simpl.
    exact (cellOut_range _ i j row cell Hc Ei Ej).
Qed.

(** The instance of X20 on one match of heroes 0..4 against heroes 5..9 won
    by the radiant side: ten win rates, a 10 by 10 array, one match
    processed and none skipped. *)
Lemma buildMatrix_output_in_range_witness :
  exists built,
    BuildCsMatrix.buildMatrix [Examples.one_raw_match] 10 Examples.ten_heroMap = Ok built
    /\ BuildCsMatrix.out_processed built = 1%Z
    /\ length (BuildCsMatrix.heroesWr built) = 10%nat
    /\ Forall (fun wr => 0 <= wr <= 100) (BuildCsMatrix.heroesWr built)
    /\ length (BuildCsMatrix.winRates built) = 10%nat
    /\ Forall (fun row => length row = 10%nat /\ Forall BuildInv.cellInRange row)
         (BuildCsMatrix.winRates built)
    /\ (BuildCsMatrix.out_processed built + BuildCsMatrix.out_skipped built
        = Z.of_nat 1)%Z.
Proof.
  destruct (BuildCsMatrix.buildMatrix [Examples.one_raw_match] 10 Examples.ten_heroMap)
    as [built|msg] eqn:E; [|vm_compute in E; discriminate].
  exists built. split; [reflexivity|]. split.
  - vm_compute in E. injection E as <-. reflexivity.
  - exact (buildMatrix_output_in_range _ _ _ built E).
Defined.

(** ** Further properties of the CSV reader and writer *)

Section CsvRoundTrip.
Import CsvIO.

Lemma parse_plain (str : Str) :
  forall tail current result,
  includes comma str = false -> includes quote str = false ->
  parseCSVLine_loop (str ++ tail) current false result
  = parseCSVLine_loop tail (current ++ str) false result.
Proof.
  induction str as [|ch str IH]; intros tail current result Hc Hq.
  - simpl. now rewrite app_nil_r.
  - change (Ascii.eqb comma ch || includes comma str = false) in Hc.
    change (Ascii.eqb quote ch || includes quote str = false) in Hq.
    apply orb_false_iff in Hc as [Hc1 Hc]. apply orb_false_iff in Hq as [Hq1 Hq].
    rewrite Ascii.eqb_sym in Hc1. rewrite Ascii.eqb_sym in Hq1.
    change ((ch :: str) ++ tail) with (ch :: (str ++ tail)).
    cbn [parseCSVLine_loop]. rewrite Hq1, Hc1. cbn [andb].
    rewrite (IH tail (current ++ [ch]) result Hc Hq).
    now rewrite <- app_assoc.
Qed.

Lemma parse_quoted (str : Str) :
  forall tail current result,
  fieldEnd tail ->
  parseCSVLine_loop (doubleQuotes str ++ quote :: tail) current true result
  = parseCSVLine_loop tail (current ++ str) false result.
Proof.
  induction str as [|ch str IH]; intros tail current result Ht; simpl.
  - rewrite app_nil_r. destruct Ht as [->|[rest ->]]; reflexivity.
  - destruct (Ascii.eqb ch quote) eqn:E.
    + apply Ascii.eqb_eq in E. subst ch. simpl.
      rewrite (IH tail (current ++ [quote]) result Ht).
      now rewrite <- app_assoc.
    + simpl. rewrite E. rewrite andb_false_r.
      rewrite (IH tail (current ++ [ch]) result Ht).
      now rewrite <- app_assoc.
Qed.

Lemma parse_field (rec : Rec) (key : string) (tail : Str) (result : list Str) :
  fieldEnd tail ->
  parseCSVLine_loop (field rec key ++ tail) [] false result
  = parseCSVLine_loop tail (valueOf rec key) false result.
Proof.
  intros Ht. unfold field, valueOf.
  destruct (rec !! key) as [str|]; [|reflexivity].
  destruct (includes comma str || includes quote str) eqn:E.
  - simpl. rewrite <- app_assoc. simpl.
    change (parseCSVLine_loop (doubleQuotes str ++ quote :: tail) [] true result
            = parseCSVLine_loop tail str false result).
    now rewrite (parse_quoted str tail [] result Ht).
  - apply orb_false_iff in E as [Hc Hq].
    now rewrite (parse_plain str tail [] result Hc Hq).
Qed.

Lemma parse_comma (tail current : Str) (result : list Str) :
  parseCSVLine_loop (comma :: tail) current false result
  = parseCSVLine_loop tail [] false (result ++ [current]).
Proof. reflexivity. Qed.

Lemma parse_row (rec : Rec) (header : list string) :
  forall key result,
  parseCSVLine_loop (row rec (key :: header)) [] false result
  = result ++ map (valueOf rec) (key :: header).
Proof.
  unfold row.
  induction header as [|key' header IH]; intros key result.
  - simpl. rewrite <- (app_nil_r (field rec key)).
    rewrite (parse_field rec key [] result) by now left.
    reflexivity.
  - change (join [comma] (map (field rec) (key :: key' :: header)))
      with (field rec key ++ comma :: join [comma] (map (field rec) (key' :: header))).
    rewrite (parse_field rec key _ result) by (right; eauto).
    rewrite parse_comma.
    rewrite (IH key' (result ++ [valueOf rec key])).
    now rewrite <- app_assoc.
Qed.

Lemma app_singleton_nonempty {A : Type} (xs : list A) (x : A) : xs ++ [x] <> [].
Proof. now destruct xs. Qed.

Lemma parseCSVLine_loop_nonempty (n : nat) :
  forall line current inQuotes result,
  (length line <= n)%nat ->
  parseCSVLine_loop line current inQuotes result <> [].
Proof.
  induction n as [|n IH]; intros [|ch rest] current inQuotes result Hn;
    simpl in Hn; try lia; try apply app_singleton_nonempty.
  cbn [parseCSVLine_loop].
  destruct (Ascii.eqb ch quote).
  - destruct inQuotes, rest as [|next rest'];
      try (apply IH; simpl in *; lia).
    destruct (Ascii.eqb next quote); apply IH; simpl in *; lia.
  - destruct (Ascii.eqb ch comma && negb inQuotes); apply IH; lia.
Qed.

End CsvRoundTrip.

(** X21. A row written by [toCSV] reads back under [parseCSVLine]: for
    every record and every non-empty list of columns, parsing the row gives
    the values of the columns in order, the empty string for a missing one,
    whatever commas and double quotes the values hold; and [parseCSVLine]
    returns at least one field for every line. *)
Theorem toCSV_row_parses_back (rec : CsvIO.Rec) (header : list string) :
  header <> [] ->
  CsvIO.parseCSVLine (CsvIO.row rec header) = map (CsvIO.valueOf rec) header
  /\ forall line, CsvIO.parseCSVLine line <> [].
Proof.
  intros Hne. split.
  - destruct header as [|key header]; [congruence|].
    unfold CsvIO.parseCSVLine. now rewrite parse_row.
  - intros line. unfold CsvIO.parseCSVLine.
    now apply (parseCSVLine_loop_nonempty (length line)).
Qed.

(** The instance of X21 on a record whose team name holds a comma and a
    double quote and whose odds column is missing: the row is written with
    the name in quotes and its quotes doubled, and reads back as the name
    and the empty string. *)
Lemma toCSV_row_parses_back_witness :
  ["team1"; "odds"]%string <> []
  /\ CsvIO.row CsvIO.quoted_rec ["team1"; "odds"]%string
     = [CsvIO.quote; CsvIO.quote; CsvIO.quote; "A"%char; CsvIO.quote; CsvIO.quote;
        ","%char; "B"%char; CsvIO.quote; ","%char]
  /\ CsvIO.parseCSVLine (CsvIO.row CsvIO.quoted_rec ["team1"; "odds"]%string)
     = [CsvIO.quoted_name; []].
Proof.
  assert (Hne : ["team1"; "odds"]%string <> []) by discriminate.
  split; [exact Hne|]. split; [reflexivity|].
  exact (proj1 (toCSV_row_parses_back CsvIO.quoted_rec ["team1"; "odds"]%string Hne)).
Defined.

(** ** Further properties of the guards and of the match order *)

Section GuardNesting.
Import Sweep SweepPure.

Variables (group : string) (st : Stake) (T : Q).

Lemma heroFilter_nests (m : Match) :
  (heroFilterSatisfied m hf_5p5m = true -> heroFilterSatisfied m hf_4p4m = true)
  /\ heroFilterSatisfied m hf_none = true.
Proof.
  split; [|reflexivity]. unfold heroFilterSatisfied.
  intros H. apply andb_true_iff in H as [H1 H2].
  apply Z.leb_le in H1, H2. apply andb_true_iff. split; apply Z.leb_le; lia.
Qed.

Lemma skipsMatch_filter (oc : OddsCondition) (f f' : HeroFilter) (m : Match) :
  (heroFilterSatisfied m f = true -> heroFilterSatisfied m f' = true) ->
  skipsMatch {| strategy_group := group; stake := st; hero_filter := f;
                odds_condition := oc |} T m = false ->
  skipsMatch {| strategy_group := group; stake := st; hero_filter := f';
                odds_condition := oc |} T m = false.
Proof.
  intros Hf. unfold skipsMatch, oddsConditionFails. simpl.
  intros H.
  apply orb_false_iff in H as [H Ho]. apply orb_false_iff in H as [H Hh].
  apply orb_false_iff in H as [Hd Hc].
  rewrite Hd, Hc, Ho. apply negb_false_iff in Hh. now rewrite (Hf Hh).
Qed.

Lemma eligible_filter (oc : OddsCondition) (f f' : HeroFilter) (ms : list Match) :
  (forall m, heroFilterSatisfied m f = true -> heroFilterSatisfied m f' = true) ->
  (eligible {| strategy_group := group; stake := st; hero_filter := f;
               odds_condition := oc |} T ms
   <= eligible {| strategy_group := group; stake := st; hero_filter := f';
                  odds_condition := oc |} T ms)%Z.
Proof.
  intros Hf. induction ms as [|m ms IH]; cbn [eligible]; [lia|].
  destruct (skipsMatch {| strategy_group := group; stake := st; hero_filter := f;
                          odds_condition := oc |} T m) eqn:E.
  - destruct (skipsMatch {| strategy_group := group; stake := st; hero_filter := f';
                            odds_condition := oc |} T m); lia.
  - rewrite (skipsMatch_filter oc f f' m (Hf m) E). lia.
Qed.

Lemma eligible_odds (f : HeroFilter) (ms : list Match) :
  (eligible {| strategy_group := group; stake := st; hero_filter := f;
               odds_condition := oc_favorite |} T ms
   + eligible {| strategy_group := group; stake := st; hero_filter := f;
                 odds_condition := oc_underdog |} T ms
   <= eligible {| strategy_group := group; stake := st; hero_filter := f;
                  odds_condition := oc_any |} T ms)%Z.
Proof.
  induction ms as [|m ms IH]; cbn [eligible]; [lia|].
  unfold skipsMatch, oddsConditionFails. cbn [odds_condition hero_filter].
  destruct (Qlt_bool (deltaAbs m) T); cbn [orb]; [lia|].
  destruct (oddsRelation m); simpl;
    destruct (negb (heroFilterSatisfied m f)); simpl; try lia;
    destruct (Qle_bool (favOdds m) 1); lia.
Qed.

End GuardNesting.

(** X22. The guards of the strategy loop nest: with the same threshold and
    odds condition, a corpus has at most as many eligible matches under the
    hero filter 5+5- as under 4+4-, and at most as many under 4+4- as
    without a filter; and with the same threshold and hero filter, the
    matches eligible under the condition "favorite" and those eligible under
    "underdog" together are at most those eligible under "any". *)
Theorem sweep_guards_nest (group : string) (st : Sweep.Stake) (T : Q)
    (ms : list Sweep.Match) :
  let combo f oc :=
    {| Sweep.strategy_group := group; Sweep.stake := st;
       Sweep.hero_filter := f; Sweep.odds_condition := oc |} in
  (forall oc,
      (SweepPure.eligible (combo Sweep.hf_5p5m oc) T ms
       <= SweepPure.eligible (combo Sweep.hf_4p4m oc) T ms)%Z
      /\ (SweepPure.eligible (combo Sweep.hf_4p4m oc) T ms
          <= SweepPure.eligible (combo Sweep.hf_none oc) T ms)%Z)
  /\ (forall f,
      (SweepPure.eligible (combo f Sweep.oc_favorite) T ms
       + SweepPure.eligible (combo f Sweep.oc_underdog) T ms
       <= SweepPure.eligible (combo f Sweep.oc_any) T ms)%Z).
Proof.
  intros combo. split.
  - intros oc. split; apply eligible_filter; intros m.
    + apply heroFilter_nests.
    + intros _. reflexivity.
  - intros f. apply eligible_odds.
Qed.

Section MatchOrder.
Import CsvIO.

Lemma compareMatches_cases (a b : SortKey) :
  (date_obj a <> date_obj b
   /\ compareMatches a b = (date_obj a - date_obj b)%Z)
  \/ (date_obj a = date_obj b /\ series_id_num a <> series_id_num b
      /\ compareMatches a b = (series_id_num a - series_id_num b)%Z)
  \/ (date_obj a = date_obj b /\ series_id_num a = series_id_num b
      /\ map_number_num a <> map_number_num b
      /\ compareMatches a b = (map_number_num a - map_number_num b)%Z)
  \/ (date_obj a = date_obj b /\ series_id_num a = series_id_num b
      /\ map_number_num a = map_number_num b
      /\ compareMatches a b = (hawk_match_id_num a - hawk_match_id_num b)%Z).
Proof.
  unfold compareMatches.
  destruct (Z.eqb_spec (date_obj a - date_obj b) 0) as [Ed|Ed]; simpl;
    [|left; split; [lia|reflexivity]].
  destruct (Z.eqb_spec (series_id_num a) (series_id_num b)) as [Es|Es]; simpl;
    [|right; left; repeat split; auto; lia].
  destruct (Z.eqb_spec (map_number_num a) (map_number_num b)) as [Em|Em]; simpl;
    [|right; right; left; repeat split; auto; lia].
  right; right; right. repeat split; auto; lia.
Qed.

End MatchOrder.

(** X23. The comparator [execute] sorts the matches with is a consistent
    order on the keys (date, series, map, match id): exchanging its
    arguments negates its result; it returns 0 exactly when the four keys
    are equal; and it is transitive, both as "not after" and as
    "before". *)
Theorem compareMatches_consistent (a b c : CsvIO.SortKey) :
  CsvIO.compareMatches b a = (- CsvIO.compareMatches a b)%Z
  /\ (CsvIO.compareMatches a b = 0%Z <-> a = b)
  /\ ((CsvIO.compareMatches a b <= 0)%Z -> (CsvIO.compareMatches b c <= 0)%Z ->
      (CsvIO.compareMatches a c <= 0)%Z)
  /\ ((CsvIO.compareMatches a b < 0)%Z -> (CsvIO.compareMatches b c < 0)%Z ->
      (CsvIO.compareMatches a c < 0)%Z).
Proof.
  pose proof (compareMatches_cases a b) as Hab.
  pose proof (compareMatches_cases b a) as Hba.
  pose proof (compareMatches_cases b c) as Hbc.
  pose proof (compareMatches_cases a c) as Hac.
  split; [|split; [|split]].
  - lia.
  - split.
    + intros H0. destruct a, b. simpl in *. f_equal; lia.
    + intros ->. clear. unfold CsvIO.compareMatches.
      rewrite Z.sub_diag, !Z.eqb_refl. simpl. lia.
  - lia.
  - lia.
Qed.
